(** * Verification of the audio transcription pipeline
    (src/scripts/transcribeAudio.ts)

    The development embeds the segmentation / transcription / stitching code
    of [transcribeAudio.ts] and settles the properties the specification
    states about it.

    Conventions of the embedding.
    - A JavaScript number that holds a time in seconds is represented by the
      integer count of milliseconds ([Z]).  Every time the cue-track code
      manipulates has at most three decimals (the cue regular expression only
      accepts [HH:MM:SS.mmm]; the offsets are whole seconds), so sums,
      comparisons, [Math.floor], [%] and [toFixed(3)] are exact in this
      representation.  IEEE rounding of doubles is not modelled.
    - Strings are [string] (sequences of bytes); [trim] knows the ASCII white
      space characters only.
    - Code that can throw returns a [Result]. *)

From Stdlib Require Import ZArith Lia Ascii DecimalString.
From Stdlib Require DecimalPos.
From stdpp Require Import gmap strings list.

Local Open Scope Z_scope.

(** ** JavaScript string and number primitives used by the source *)
Module JS.

(** [s.split(sep)] for a one-character separator: always at least one
    piece, an empty string yields one empty piece. *)
Fixpoint split (sep : ascii) (s : string) : list string :=
  match s with
  | EmptyString => [EmptyString]
  | String c s' =>
      if Ascii.eqb c sep then EmptyString :: split sep s'
      else match split sep s' with
           | [] => [String c EmptyString]
           | w :: ws => String c w :: ws
           end
  end.

(** [parts.join(sep)] *)
Fixpoint join (sep : string) (parts : list string) : string :=
  match parts with
  | [] => ""
  | [p] => p
  | p :: ps => p +:+ sep +:+ join sep ps
  end.

Fixpoint trimStart (s : string) : string :=
  match s with
  | EmptyString => EmptyString
  | String c s' => if Ascii.is_space c then trimStart s' else s
  end.

Fixpoint trimEnd (s : string) : string :=
  match s with
  | EmptyString => EmptyString
  | String c s' =>
      match trimEnd s' with
      | EmptyString => if Ascii.is_space c then EmptyString else String c EmptyString
      | t => String c t
      end
  end.

(** [s.trim()] *)
Definition trim (s : string) : string := trimEnd (trimStart s).

(** [s.startsWith(p)], also the test of an anchored literal such as
    [/^WEBVTT/]. *)
Fixpoint startsWith (p s : string) : bool :=
  match p, s with
  | EmptyString, _ => true
  | String a p', String b s' => Ascii.eqb a b && startsWith p' s'
  | String _ _, EmptyString => false
  end.

(** [s.includes(p)] *)
Fixpoint includes (p s : string) : bool :=
  startsWith p s ||
  match s with
  | EmptyString => false
  | String _ s' => includes p s'
  end.

Fixpoint drop (n : nat) (s : string) : string :=
  match n, s with
  | O, _ => s
  | S n', String _ s' => drop n' s'
  | S _, EmptyString => EmptyString
  end.

(** [s.replace(p, r)] with a string pattern: the first occurrence only.
    The replacement strings built by the source hold no [$]. *)
Fixpoint replace (p r s : string) : string :=
  if startsWith p s then r +:+ drop (String.length p) s
  else match s with
       | EmptyString => EmptyString
       | String c s' => String c (replace p r s')
       end.

(** [s.padStart(n, c)] for a one-character filler. *)
Definition padStart (n : nat) (c : ascii) (s : string) : string :=
  String.string_of_list_ascii (repeat c (n - String.length s)) +:+ s.

(** [n.toString()] of an integer. *)
Definition toString (n : Z) : string := NilZero.string_of_int (Z.to_int n).

Definition isDigit (c : ascii) : bool :=
  match Ascii.is_nat c with Some _ => true | None => false end.

Definition digitValue (c : ascii) : Z :=
  match Ascii.is_nat c with Some d => Z.of_nat d | None => 0 end.

(** Value of a run of decimal digits, [None] when another character occurs. *)
Fixpoint digits (acc : Z) (s : string) : option Z :=
  match s with
  | EmptyString => Some acc
  | String c s' =>
      if isDigit c then digits (10 * acc + digitValue c) s' else None
  end.

(** [Number(s)] on plain decimal literals, in milliseconds: one or more
    digits, optionally followed by a point and one to three digits.
    [None] stands for [NaN] and for every literal outside this fragment
    (signs, exponents, more than three decimals). *)
Definition Number (s : string) : option Z :=
  match split "." s with
  | [ip] =>
      match ip with
      | EmptyString => None
      | _ => (fun n => 1000 * n) <$> digits 0 ip
      end
  | [ip; fp] =>
      match ip, digits 0 ip, digits 0 fp with
      | String _ _, Some n, Some f =>
          match String.length fp with
          | 1%nat => Some (1000 * n + 100 * f)
          | 2%nat => Some (1000 * n + 10 * f)
          | 3%nat => Some (1000 * n + f)
          | _ => None
          end
      | _, _, _ => None
      end
  | _ => None
  end.

(** [x.toFixed(3)] of a number of seconds held in milliseconds. *)
Definition toFixed3 (ms : Z) : string :=
  (if ms <? 0 then "-" else "") +:+
  toString (Z.abs ms / 1000) +:+ "." +:+
  padStart 3 "0" (toString (Z.abs ms mod 1000)).

End JS.

(** ** Constants of the source *)

Definition MAX_FILE_SIZE : Z := 25 * 1024 * 1024.
Definition SEGMENT_DURATION : Z := 10 * 60 * 1000.
Definition SEGMENT_OVERLAP : Z := 20 * 1000.

(** ** TimeCodec *)

(** [parseVTTTimestamp]: [hours * 3600 + minutes * 60 + seconds]; the three
    numbers are held in milliseconds, and so is the sum.  [None] is [NaN].
    The source adds doubles, so its sum can be one unit in the last place
    away from this exact value; [toFixed(3)] writes the same text for
    both. *)
Definition parseVTTTimestamp (timestamp : string) : option Z :=
  match JS.Number <$> JS.split ":" timestamp with
  | Some hours :: Some minutes :: Some seconds :: _ =>
      Some (hours * 3600 + minutes * 60 + seconds)
  | _ => None
  end.

(** [formatVTTTimestamp]: [Math.floor] is [Z.div] and [%] is [Z.rem] (the
    sign of the dividend); [hours] and [minutes] are integers, the remaining
    seconds stay in milliseconds for [toFixed(3)]. *)
Definition formatVTTTimestamp (seconds : Z) : string :=
  let hours := seconds / (3600 * 1000) in
  let minutes := Z.rem seconds (3600 * 1000) / (60 * 1000) in
  let remainingSeconds := Z.rem seconds (60 * 1000) in
  JS.padStart 2 "0" (JS.toString hours) +:+ ":" +:+
  JS.padStart 2 "0" (JS.toString minutes) +:+ ":" +:+
  JS.padStart 6 "0" (JS.toFixed3 remainingSeconds).

(** ** Stitcher, cue-track shape *)

Definition LF : ascii := "010"%char.
Definition nl : string := String LF EmptyString.

(** A match of [\d{2}:\d{2}:\d{2}\.\d{3}] at the head of a string: the
    twelve characters matched and what follows them. *)
Definition timestampAt (s : string) : option (string * string) :=
  match s with
  | String h1 (String h2 (String c1 (String m1 (String m2 (String c2
      (String s1 (String s2 (String d (String f1 (String f2 (String f3
         rest))))))))))) =>
      if JS.isDigit h1 && JS.isDigit h2 && Ascii.eqb c1 ":" &&
         JS.isDigit m1 && JS.isDigit m2 && Ascii.eqb c2 ":" &&
         JS.isDigit s1 && JS.isDigit s2 && Ascii.eqb d "." &&
         JS.isDigit f1 && JS.isDigit f2 && JS.isDigit f3
      then Some (String h1 (String h2 (String c1 (String m1 (String m2
                  (String c2 (String s1 (String s2 (String d (String f1
                    (String f2 (String f3 EmptyString))))))))))), rest)
      else None
  | _ => None
  end.

Definition arrow : string := " --> ".

(** The result of [currentCue.match(/(ts) --> (ts)/)]: the text before the
    match, the two groups and the text after it. *)
Record TimestampMatch := {
  before : string;
  group1 : string;
  group2 : string;
  after : string
}.

(** [timestampMatch[0]] *)
Definition matched (m : TimestampMatch) : string :=
  group1 m +:+ arrow +:+ group2 m.

Definition matchHere (s : string) : option TimestampMatch :=
  match timestampAt s with
  | Some (g1, r1) =>
      if JS.startsWith arrow r1 then
        match timestampAt (JS.drop 5 r1) with
        | Some (g2, r2) =>
            Some {| before := ""; group1 := g1; group2 := g2; after := r2 |}
        | None => None
        end
      else None
  | None => None
  end.

(** The regular expression is not anchored: the leftmost match wins. *)
Fixpoint timestampMatch (s : string) : option TimestampMatch :=
  match matchHere s with
  | Some m => Some m
  | None =>
      match s with
      | EmptyString => None
      | String c s' =>
          (fun m => {| before := String c (before m); group1 := group1 m;
                       group2 := group2 m; after := after m |})
            <$> timestampMatch s'
      end
  end.

(** A cue appended to the stitched track: its shifted times and the block of
    text appended for it. *)
Record Cue := {
  cueStart : Z;
  cueEnd : Z;
  cueBlock : string
}.

(** The accumulator of [combineVTTTranscriptions].  [kept] is the list of the
    cues whose blocks were appended to [combined], in order; the source holds
    them in [combined] only. *)
Record VttState := {
  combined : string;
  kept : list Cue;
  timeOffset : Z
}.

(** The body of [if (currentCue) { ... }]: one cue block is examined and
    appended or dropped.  The two groups of a match always parse
    ([timestampMatch_parses]), the last branch is never taken. *)
Definition processCue (i : nat) (currentCue : string) (st : VttState) : VttState :=
  match timestampMatch currentCue with
  | Some m =>
      match parseVTTTimestamp (group1 m), parseVTTTimestamp (group2 m) with
      | Some t1, Some t2 =>
          let startTime := t1 + timeOffset st in
          let endTime := t2 + timeOffset st in
          if (i =? 0)%nat || (timeOffset st + SEGMENT_OVERLAP <=? startTime) then
            let adjustedCue :=
              JS.replace (matched m)
                (formatVTTTimestamp startTime +:+ arrow +:+ formatVTTTimestamp endTime)
                currentCue in
            {| combined := combined st +:+ JS.trim adjustedCue +:+ nl +:+ nl;
               kept := kept st ++
                 [{| cueStart := startTime; cueEnd := endTime;
                     cueBlock := JS.trim adjustedCue |}];
               timeOffset := timeOffset st |}
          else st
      | _, _ => st
      end
  | None => st
  end.

(** [for (const line of lines) { ... }] *)
Fixpoint cueLoop (i : nat) (lines : list string) (currentCue : string)
    (st : VttState) : VttState :=
  match lines with
  | [] => st
  | line :: rest =>
      if String.eqb (JS.trim line) "" then
        if String.eqb currentCue "" then cueLoop i rest currentCue st
        else cueLoop i rest "" (processCue i currentCue st)
      else cueLoop i rest (currentCue +:+ line +:+ nl) st
  end.

(** One turn of the outer loop of [combineVTTTranscriptions]. *)
Definition combineVTTStep (i : nat) (transcription : string) (st : VttState) : VttState :=
  let lines := JS.split LF transcription in
  let st1 :=
    if (i =? 0)%nat then
      {| combined := combined st +:+ hd "" lines +:+ nl +:+ nl;
         kept := kept st; timeOffset := timeOffset st |}
    else st in
  let lines1 := if (i =? 0)%nat then tail (tail lines) else lines in
  let st2 := cueLoop i lines1 "" st1 in
  {| combined := combined st2; kept := kept st2;
     timeOffset := timeOffset st2 + (SEGMENT_DURATION - SEGMENT_OVERLAP) |}.

Fixpoint combineVTTLoop (i : nat) (transcriptions : list string) (st : VttState) : VttState :=
  match transcriptions with
  | [] => st
  | transcription :: rest =>
      combineVTTLoop (S i) rest (combineVTTStep i transcription st)
  end.

Definition vttInit : VttState := {| combined := ""; kept := []; timeOffset := 0 |}.

Definition combineVTTTranscriptions (transcriptions : list string) : string :=
  JS.trim (combined (combineVTTLoop 0 transcriptions vttInit)).

(** ** Stitcher, structured shape *)

Inductive Result (A : Type) : Type :=
| Ok (a : A)
| Throw (message : string).
Arguments Ok {A} a.
Arguments Throw {A} message.

Record Word := {
  word : string;
  wordStart : Z;
  wordEnd : Z
}.

Record Segment := {
  id : Z;
  segStart : Z;
  segEnd : Z;
  segText : string
}.

Record TranscriptionResponse := {
  text : string;
  words : list Word;
  segments : list Segment
}.

Definition shiftWord (timeOffset : Z) (w : Word) : Word :=
  {| word := word w; wordStart := wordStart w + timeOffset;
     wordEnd := wordEnd w + timeOffset |}.

Definition shiftSegment (timeOffset : Z) (s : Segment) : Segment :=
  {| id := id s; segStart := segStart s + timeOffset;
     segEnd := segEnd s + timeOffset; segText := segText s |}.

(** The loop of [combineJSONTranscriptions] with its two variables.  A
    transcription is the object [JSON.parse] returns.  Reading [.end] of
    [data.segments[data.segments.length - 1]] throws a [TypeError] when the
    clip has no segment entry. *)
Fixpoint combineJSONLoop (transcriptions : list TranscriptionResponse)
    (combined : TranscriptionResponse) (timeOffset : Z)
    : Result (TranscriptionResponse * Z) :=
  match transcriptions with
  | [] => Ok (combined, timeOffset)
  | data :: rest =>
      let combined1 :=
        {| text := text combined +:+ text data +:+ " ";
           words := words combined ++ (shiftWord timeOffset <$> words data);
           segments := segments combined ++
                       (shiftSegment timeOffset <$> segments data) |} in
      match last (segments data) with
      | Some s => combineJSONLoop rest combined1 (segEnd s)
      | None => Throw "TypeError: Cannot read properties of undefined (reading 'end')"
      end
  end.

Definition jsonInit : TranscriptionResponse :=
  {| text := ""; words := []; segments := [] |}.

Definition combineJSONTranscriptions (transcriptions : list TranscriptionResponse)
    : Result TranscriptionResponse :=
  match combineJSONLoop transcriptions jsonInit 0 with
  | Ok (combined, _) => Ok combined
  | Throw e => Throw e
  end.

(** ** The world the pipeline acts on *)

Definition Buffer : Type := list Byte.byte.

(** One run of the media tool:
    [ffmpeg(source).setStartTime(startTime).setDuration(duration).output(output)].
    Times are in milliseconds. *)
Record Extraction := {
  source : string;
  startTime : Z;
  duration : Z;
  output : string
}.

(** The multipart form posted to the transcription service. *)
Record Request := {
  authorization : string;
  file : Buffer;
  model : string;
  language : string;
  prompt : option string;
  response_format : string;
  timestamp_granularities : list string
}.

(** The files of the temporary directory, the runs of the media tool and the
    requests sent so far. *)
Record World := {
  files : gmap string Buffer;
  extractions : list Extraction;
  requests : list Request
}.

(** Computations that read and change the world and may throw; what was done
    before a throw stays done. *)
Definition M (A : Type) : Type := World -> Result A * World.

Definition ret {A} (a : A) : M A := fun w => (Ok a, w).
Definition throw {A} (message : string) : M A := fun w => (Throw message, w).
Definition bind {A B} (m : M A) (k : A -> M B) : M B :=
  fun w =>
    match m w with
    | (Ok a, w1) => k a w1
    | (Throw e, w1) => (Throw e, w1)
    end.

Notation "'let*' x ':=' m 'in' k" := (bind m (fun x => k))
  (at level 10, x name, m at level 100, k at level 200).

Definition writeFile (path : string) (data : Buffer) : M unit :=
  fun w => (Ok tt, {| files := <[path := data]> (files w);
                      extractions := extractions w; requests := requests w |}).

Definition readFile (path : string) : M Buffer :=
  fun w =>
    match files w !! path with
    | Some data => (Ok data, w)
    | None => (Throw "ENOENT: no such file or directory", w)
    end.

(** [rm(path, { force })] *)
Definition rm (path : string) (force : bool) : M unit :=
  fun w =>
    match files w !! path with
    | None =>
        if force then (Ok tt, w)
        else (Throw "ENOENT: no such file or directory", w)
    | Some _ =>
        (Ok tt, {| files := delete path (files w);
                   extractions := extractions w; requests := requests w |})
    end.

Inductive Format := vtt | json.

(** What [transcribeAudioSegment] returns: the cue-track text, or the JSON
    text of a response, held as the object it serialises. *)
Definition Doc (f : Format) : Type :=
  match f with
  | vtt => string
  | json => TranscriptionResponse
  end.

(** The outcome of the [ofetch] call: the body, or the error it throws with
    its [status], [message] and [data.error.message]. *)
Inductive Reply (f : Format) : Type :=
| Success (body : Doc f)
| Failure (status : option Z) (message : string) (dataMessage : option string).
Arguments Success {f} body.
Arguments Failure {f} status message dataMessage.

(** The result of [ffprobe]: an error, or the metadata with its optional
    duration. *)
Inductive Probe :=
| ProbeError (message : string)
| ProbeOk (formatDuration : option Z).

Definition DEFAULT_SYSTEM_PROMPT : string :=
  "This is a transcript about Vue.js and Nuxt.js, not Next.js. The content may include technical terms related to Vue, Nuxt, JavaScript, and web development.".

(** [extractTextFromVTT] *)
Definition twoDigitsColon (line : string) : bool :=
  match line with
  | String a (String b (String c _)) =>
      JS.isDigit a && JS.isDigit b && Ascii.eqb c ":"
  | _ => false
  end.

Definition extractTextFromVTT (vttText : string) : string :=
  let lines := JS.split LF vttText in
  JS.trim
    (foldl (fun text line =>
              if negb (JS.includes "-->" line) &&
                 negb (JS.startsWith "WEBVTT" line) &&
                 negb (String.eqb (JS.trim line) "") &&
                 negb (twoDigitsColon line)
              then text +:+ " " +:+ JS.trim line
              else text)
           "" lines).

(** [list.slice(-n)] *)
Definition sliceLast {A} (n : nat) (l : list A) : list A :=
  drop (length l - n) l.

Definition truthy {f : Format} : Doc f -> bool :=
  match f with
  | vtt => fun t => negb (String.eqb t "")
  | json => fun _ => true
  end.

Definition previousTextOf {f : Format} : Doc f -> string :=
  match f with
  | vtt => extractTextFromVTT
  | json => text
  end.

Definition combineTranscriptions {f : Format} : list (Doc f) -> Result (Doc f) :=
  match f with
  | vtt => fun ts => Ok (combineVTTTranscriptions ts)
  | json => combineJSONTranscriptions
  end.

Section Pipeline.

(** The collaborators: the temporary directory of the system, the duration
    probe, the clip extractor and the transcription service.  The service
    may answer the same request differently each time; its answer depends
    on the number of requests already sent. *)
Variable tmpdir : string.
Variable ffprobe : Buffer -> Probe.
Variable ffmpeg : Buffer -> Z -> Z -> Result Buffer.
Variable whisper : forall f : Format, nat -> Request -> Reply f.

Definition tempDir : string := tmpdir +:+ "/audio-segments".
Definition inputPath : string := tempDir +:+ "/input.mp3".
Definition outputPath : string := tempDir +:+ "/segment-%d.mp3".

(** The media tool reads [src], cuts [dur] milliseconds from [start] on
    and writes them to [out].  When the tool fails the source rejects inside
    the probe callback: the promise of [splitAudioFile] is never settled and
    the rejection, which no caller can catch, ends the process.  The model
    makes this a throw: either way the run yields no transcript.  What is
    stated about a caller that catches assumes that no extraction fails. *)
Definition runFfmpeg (src : string) (start dur : Z) (out : string) : M unit :=
  fun w =>
    let w1 := {| files := files w;
                 extractions := extractions w ++
                   [{| source := src; startTime := start; duration := dur;
                       output := out |}];
                 requests := requests w |} in
    match files w !! src with
    | None => (Throw "ffmpeg: no such file", w1)
    | Some data =>
        match ffmpeg data start dur with
        | Ok clip =>
            (Ok tt, {| files := <[out := clip]> (files w1);
                       extractions := extractions w1;
                       requests := requests w1 |})
        | Throw e => (Throw e, w1)
        end
    end.

(** [while (currentTime < duration) { ... }] of [splitAudioFile]; the
    current time advances by [SEGMENT_DURATION] each turn, so
    [splitFuel duration] turns are enough ([splitLoop_fuel]). *)
Fixpoint splitLoop (fuel : nat) (duration : Z) (segments : list string)
    (segmentIndex : Z) (currentTime : Z) : M (list string) :=
  match fuel with
  | O => ret segments
  | S fuel' =>
      if currentTime <? duration then
        let segmentPath := JS.replace "%d" (JS.toString segmentIndex) outputPath in
        let startTime := Z.max 0 (currentTime - SEGMENT_OVERLAP) in
        let* _ := runFfmpeg inputPath startTime SEGMENT_DURATION segmentPath in
        splitLoop fuel' duration (segments ++ [segmentPath])
          (segmentIndex + 1) (currentTime + SEGMENT_DURATION)
      else ret segments
  end.

Definition splitFuel (duration : Z) : nat :=
  S (Z.to_nat (duration / SEGMENT_DURATION)).

(** [splitAudioFile]; [mkdir] has no effect on the files. *)
Definition splitAudioFile (audioBuffer : Buffer) : M (list string) :=
  let* _ := writeFile inputPath audioBuffer in
  match ffprobe audioBuffer with
  | ProbeError err =>
      let* _ := rm inputPath true in
      throw err
  | ProbeOk formatDuration =>
      let duration := default 0 formatDuration in
      let* segments := splitLoop (splitFuel duration) duration [] 0 0 in
      let* _ := rm inputPath false in
      ret segments
  end.

(** The message of the [Error] thrown from the [catch] block. *)
Definition transcriptionError (status : option Z) (message : string)
    (dataMessage : option string) : string :=
  match status with
  | Some 400 =>
      "Bad Request: " +:+
      match dataMessage with
      | Some m => if String.eqb m "" then message else m
      | None => message
      end
  | Some 401 => "Authentication failed. Please check your API key."
  | Some 429 => "Rate limit exceeded. Please try again later."
  | _ => "Transcription failed: " +:+ message
  end.

Definition transcribeAudioSegment (f : Format) (audioBuffer : Buffer)
    (apiKey model language : string) (prompt : string) : M (Doc f) :=
  fun w =>
    let formData :=
      {| authorization := "Bearer " +:+ apiKey;
         file := audioBuffer;
         model := model;
         language := language;
         prompt := if String.eqb prompt "" then None else Some prompt;
         response_format := match f with vtt => "vtt" | json => "verbose_json" end;
         timestamp_granularities := match f with vtt => [] | json => ["word"] end |} in
    let w1 := {| files := files w; extractions := extractions w;
                 requests := requests w ++ [formData] |} in
    match whisper f (length (requests w)) formData with
    | Success body => (Ok body, w1)
    | Failure status message dataMessage =>
        (Throw (transcriptionError status message dataMessage), w1)
    end.

(** [for (let i = 0; i < segments.length; i++) { ... }] of
    [transcribeAudio]; [previousTranscription] is [None] for the initial
    empty string. *)
Fixpoint transcribeLoop (f : Format) (apiKey model language prompt : string)
    (segments : list string) (i : nat)
    (previousTranscription : option (Doc f)) (transcriptions : list (Doc f))
    : M (list (Doc f)) :=
  match segments with
  | [] => ret transcriptions
  | segment :: rest =>
      let* segmentBuffer := readFile segment in
      let segmentPrompt :=
        match previousTranscription with
        | Some previous =>
            if (0 <? i)%nat && truthy previous then
              let previousText := previousTextOf previous in
              let contextText :=
                JS.join " " (sliceLast 50 (JS.split " " previousText)) in
              prompt +:+ " Previous context: " +:+ contextText
            else prompt
        | None => prompt
        end in
      let* transcription :=
        transcribeAudioSegment f segmentBuffer apiKey model language
          segmentPrompt in
      transcribeLoop f apiKey model language prompt rest (S i)
        (Some transcription) (transcriptions ++ [transcription])
  end.

Definition transcribeAudio (f : Format) (audioBuffer : Buffer)
    (apiKey model language prompt : string) : M (Doc f) :=
  if Z.of_nat (length audioBuffer) <=? MAX_FILE_SIZE then
    transcribeAudioSegment f audioBuffer apiKey model language prompt
  else
    let* segments := splitAudioFile audioBuffer in
    let* transcriptions :=
      transcribeLoop f apiKey model language prompt segments 0 None [] in
    match combineTranscriptions transcriptions with
    | Ok result => ret result
    | Throw e => throw e
    end.

End Pipeline.

(** The arithmetic of the loop of [splitAudioFile] alone: the start time and
    the duration requested for each clip ([splitLoop_spec] ties it to the
    runs of the media tool). *)
Fixpoint segmentWindows (fuel : nat) (duration currentTime : Z) : list (Z * Z) :=
  match fuel with
  | O => []
  | S fuel' =>
      if currentTime <? duration then
        (Z.max 0 (currentTime - SEGMENT_OVERLAP), SEGMENT_DURATION)
          :: segmentWindows fuel' duration (currentTime + SEGMENT_DURATION)
      else []
  end.

(** The segment descriptors [(startOffset, length)] the Segmenter requests
    for an audio of the given duration. *)
Definition descriptors (duration : Z) : list (Z * Z) :=
  segmentWindows (splitFuel duration) duration 0.

(** * Statements: auxiliary definitions *)

(** The claim's precondition, as it words it: [HH:MM:SS.mmm] with two-digit
    hours, two-digit minutes and seconds below 60 and three-digit
    milliseconds. *)
Definition wellFormedTimestamp (s : string) : bool :=
  match timestampAt s with
  | Some (String _ (String _ (String _ (String m1 (String _ (String _
            (String s1 _)))))), EmptyString) =>
      (JS.digitValue m1 <? 6) && (JS.digitValue s1 <? 6)
  | _ => false
  end.

Definition digitChar (d : Z) : ascii := ascii_of_nat (48 + Z.to_nat d).

Definition twoDigits (n : Z) : string :=
  String (digitChar (n / 10)) (String (digitChar (n mod 10)) EmptyString).

Definition threeDigits (n : Z) : string :=
  String (digitChar (n / 100)) (twoDigits (n mod 100)).

Definition exampleWord (w : string) (s e : Z) : Word :=
  {| word := w; wordStart := s; wordEnd := e |}.
Definition exampleSegment (i s e : Z) (t : string) : Segment :=
  {| id := i; segStart := s; segEnd := e; segText := t |}.

(** Two structured results of overlapping clips: the second clip starts
    with the word that closes the first one. *)
Definition clipA : TranscriptionResponse :=
  {| text := "first clip";
     words := [exampleWord "first" 0 1000; exampleWord "clip" 599000 600000];
     segments := [exampleSegment 0 0 600000 " first clip"] |}.
Definition clipB : TranscriptionResponse :=
  {| text := "clip second";
     words := [exampleWord "clip" 19000 20000; exampleWord "second" 20000 21000];
     segments := [exampleSegment 0 19000 20000 " clip";
                  exampleSegment 1 20000 21000 " second"] |}.


(** A cue track with the header and one cue from 0 s to 5 s. *)
Definition oneCueTrack : string :=
  "WEBVTT" +:+ nl +:+ nl +:+
  "00:00:00.000 --> 00:00:05.000" +:+ nl +:+ "hello" +:+ nl +:+ nl.

(** The per-clip [text] fields in order, a space after each. *)
Definition clipTexts (transcriptions : list TranscriptionResponse) : string :=
  foldr (fun data acc => text data +:+ " " +:+ acc) "" transcriptions.

(** By how much a descriptor reaches into the next one. *)
Definition overlapWith (d next : Z * Z) : Z := fst d + snd d - fst next.

(** A time lies in the interval [[startOffset, startOffset + length)]. *)
Definition covers (d : Z * Z) (t : Z) : Prop := fst d <= t < fst d + snd d.


(** *** Reading a stitched cue track *)

(** The lines the cue loop reads in turn [i]: in the first turn the header
    line and the line after it are removed. *)
Definition cueLines (i : nat) (transcription : string) : list string :=
  let lines := JS.split LF transcription in
  if (i =? 0)%nat then tail (tail lines) else lines.

(** The cues of one clip in the clip's own local time: what the cue loop
    keeps when nothing is shifted and nothing is discarded (turn 0, offset
    0). *)
Definition localCues (i : nat) (transcription : string) : list Cue :=
  kept (cueLoop 0 (cueLines i transcription) "" vttInit).

(** Cues in timeline order inside the nominal clip window: each starts no
    earlier than the previous one ends ([lo] for the first), ends after it
    starts, and ends within [SEGMENT_DURATION]. *)
Fixpoint cuesInOrder (lo : Z) (cues : list Cue) : bool :=
  match cues with
  | [] => true
  | c :: rest =>
      (lo <=? cueStart c) && (cueStart c <? cueEnd c) &&
      (cueEnd c <=? SEGMENT_DURATION) && cuesInOrder (cueEnd c) rest
  end.

(** Every clip of a run, from turn [i] on, has its cues in order. *)
Fixpoint saneClips (i : nat) (transcriptions : list string) : bool :=
  match transcriptions with
  | [] => true
  | t :: rest => cuesInOrder 0 (localCues i t) && saneClips (S i) rest
  end.

(** Start and end of each cue. *)
Definition times (cues : list Cue) : list (Z * Z) :=
  (fun c => (cueStart c, cueEnd c)) <$> cues.

(** The local times of the cue a block of text holds, if it holds one. *)
Definition cueTimes (currentCue : string) : list (Z * Z) :=
  match timestampMatch currentCue with
  | Some m =>
      match parseVTTTimestamp (group1 m), parseVTTTimestamp (group2 m) with
      | Some t1, Some t2 => [(t1, t2)]
      | _, _ => []
      end
  | None => []
  end.

(** The local times of the cues the cue loop examines, in order. *)
Fixpoint blockTimes (lines : list string) (currentCue : string) : list (Z * Z) :=
  match lines with
  | [] => []
  | line :: rest =>
      if String.eqb (JS.trim line) "" then
        if String.eqb currentCue "" then blockTimes rest currentCue
        else cueTimes currentCue ++ blockTimes rest ""
      else blockTimes rest (currentCue +:+ line +:+ nl)
  end.

(** The discard rule on local times, and the shift. *)
Definition keepTime (i : nat) (c : Z * Z) : bool :=
  (i =? 0)%nat || (SEGMENT_OVERLAP <=? fst c).

Definition shiftTime (off : Z) (c : Z * Z) : Z * Z := (fst c + off, snd c + off).

(** A chain of intervals between [lo] and [hi]. *)
Fixpoint ordered (lo hi : Z) (l : list (Z * Z)) : Prop :=
  match l with
  | [] => True
  | c :: rest => lo <= fst c /\ fst c < snd c /\ snd c <= hi /\ ordered (snd c) hi rest
  end.

(** *** Example inputs *)

Definition cueText (s e body : string) : string :=
  s +:+ arrow +:+ e +:+ nl +:+ body +:+ nl +:+ nl.

(** Two cue tracks of overlapping clips. *)
Definition trackA : string :=
  "WEBVTT" +:+ nl +:+ nl +:+
  cueText "00:00:00.000" "00:00:05.000" "hello" +:+
  cueText "00:09:55.000" "00:10:00.000" "world".
Definition trackB : string :=
  "WEBVTT" +:+ nl +:+ nl +:+
  cueText "00:00:15.000" "00:00:20.000" "world" +:+
  cueText "00:00:20.000" "00:00:25.000" "again".

(** A cue track whose second cue starts before the first. *)
Definition unorderedTrack : string :=
  "WEBVTT" +:+ nl +:+ nl +:+
  cueText "00:00:10.000" "00:00:15.000" "later" +:+
  cueText "00:00:00.000" "00:00:05.000" "earlier".

(** A structured result whose second segment entry starts before the
    first. *)
Definition unorderedDoc : TranscriptionResponse :=
  {| text := "later earlier";
     words := [exampleWord "later" 10000 15000; exampleWord "earlier" 0 5000];
     segments := [exampleSegment 0 10000 15000 " later";
                  exampleSegment 1 0 5000 " earlier"] |}.

(** Three structured results, each with one segment entry over its whole
    600 s clip. *)
Definition fullClip (t : string) : TranscriptionResponse :=
  {| text := t; words := [exampleWord t 0 600000];
     segments := [exampleSegment 0 0 600000 t] |}.

(** The audio a requested window yields: the media tool stops at the end of
    the audio. *)
Definition clipLength (duration : Z) (d : Z * Z) : Z :=
  Z.min (snd d) (duration - fst d).

(** Modelled from the spec: the synthetic Transcriber of the concrete
    scenario of section 8.  The audio holds one utterance per 100 s,
    utterance [k] from [100 k] s to [100 (k + 1)] s.  For a clip the
    Transcriber returns one cue per utterance heard in the clip, in the
    local time of the clip: from where the utterance starts, or the clip if
    it starts later, to where the utterance ends, or the clip if it ends
    earlier. *)
Fixpoint syntheticCues (fuel : nat) (k : Z) (duration : Z) (d : Z * Z) : string :=
  match fuel with
  | O => ""
  | S fuel' =>
      let lo := Z.max (100000 * k) (fst d) in
      let hi := Z.min (100000 * (k + 1)) (fst d + clipLength duration d) in
      (if lo <? hi then
         cueText (formatVTTTimestamp (lo - fst d)) (formatVTTTimestamp (hi - fst d))
                 ("cue " +:+ JS.toString k)
       else "") +:+
      syntheticCues fuel' (k + 1) duration d
  end.

Definition syntheticTranscriber (duration : Z) (d : Z * Z) : string :=
  "WEBVTT" +:+ nl +:+ nl +:+
  syntheticCues (Z.to_nat ((duration + 99999) / 100000)) 0 duration d.

(** The cue tracks of the synthetic Transcriber for a list of descriptors. *)
Definition syntheticRun (duration : Z) (ds : list (Z * Z)) : list string :=
  syntheticTranscriber duration <$> ds.

(** *** Paths *)

Fixpoint hasChar (c : ascii) (s : string) : bool :=
  match s with
  | EmptyString => false
  | String a s' => Ascii.eqb a c || hasChar c s'
  end.

(** The last five characters of a string. *)
Definition tail5 (s : string) : string := JS.drop (String.length s - 5) s.

(** The start time and the duration of each run of the media tool. *)
Definition windowsOf (xs : list Extraction) : list (Z * Z) :=
  (fun x => (startTime x, duration x)) <$> xs.

(** *** Example runs *)

(** A buffer of one byte more than [MAX_FILE_SIZE], and a small one. *)
Definition bigBuffer : Buffer := replicate (S (Z.to_nat MAX_FILE_SIZE)) Byte.x00.
Definition smallBuffer : Buffer := [Byte.x49; Byte.x44; Byte.x33].

Definition emptyWorld : World :=
  {| files := ∅; extractions := []; requests := [] |}.

(** A probe that reports 1500 s and an extractor that always succeeds. *)
Definition probe1500 (_ : Buffer) : Probe := ProbeOk (Some 1500000).
Definition extractOk (_ : Buffer) (start _ : Z) : Result Buffer :=
  Ok [Byte.x00].

(** A service that answers every request. *)
Definition serviceOk (f : Format) (_ : nat) (_ : Request) : Reply f :=
  match f return Reply f with
  | vtt => Success (trackB : Doc vtt)
  | json => Success (clipB : Doc json)
  end.

(** A service that refuses the second request with status 429. *)
Definition serviceBusy (f : Format) (n : nat) (r : Request) : Reply f :=
  if (n =? 1)%nat then Failure (Some 429) "Too Many Requests" None
  else serviceOk f n r.

(** A service whose second answer is not a cue track. *)
Definition serviceGarbled (n : nat) : string :=
  if (n =? 1)%nat then "<html>Bad Gateway</html>" else trackA.
Definition serviceGarbage (f : Format) (n : nat) (r : Request) : Reply f :=
  match f return Reply f with
  | vtt => Success (serviceGarbled n : Doc vtt)
  | json => Success (clipB : Doc json)
  end.

(** The request of the direct path. *)
Definition directRequest (f : Format) (audioBuffer : Buffer)
    (apiKey model language prompt : string) : Request :=
  {| authorization := "Bearer " +:+ apiKey;
     file := audioBuffer;
     model := model;
     language := language;
     prompt := if String.eqb prompt "" then None else Some prompt;
     response_format := match f with vtt => "vtt" | json => "verbose_json" end;
     timestamp_granularities := match f with vtt => [] | json => ["word"] end |}.

(** Every request of a step that the service answered with a failure made
    the step throw the error built from that failure; the requests sent
    before the step are untouched. *)
Definition failuresAbort {A} (whisper : forall f : Format, nat -> Request -> Reply f)
    (f : Format) (w w' : World) (r : Result A) : Prop :=
  (exists new, requests w' = requests w ++ new) /\
  forall k req status message dataMessage,
    (length (requests w) <= k)%nat ->
    requests w' !! k = Some req ->
    whisper f k req = Failure status message dataMessage ->
    r = Throw (transcriptionError status message dataMessage).

(** Three runs on [bigBuffer], in the cue-track format: every request
    answered, the second request refused, the second answer garbled. *)
Definition runWith (whisper : forall f : Format, nat -> Request -> Reply f)
    (audioBuffer : Buffer) : Result (Doc vtt) * World :=
  transcribeAudio "/tmp" probe1500 extractOk whisper vtt audioBuffer
    "key" "whisper-1" "en" DEFAULT_SYSTEM_PROMPT emptyWorld.

Definition clipPaths : list string :=
  ["/tmp/audio-segments/segment-0.mp3";
   "/tmp/audio-segments/segment-1.mp3";
   "/tmp/audio-segments/segment-2.mp3"].

(** The second request of these runs: the second clip, the prompt extended
    with the end of the first answer. *)
Definition secondRequest : Request :=
  directRequest vtt [Byte.x00] "key" "whisper-1" "en"
    (DEFAULT_SYSTEM_PROMPT +:+ " Previous context: world again").

Definition garbledAnswer : string := "<html>Bad Gateway</html>".

(** * Further definitions *)


(** The offset the structured stitcher applies to each clip: [off] for the
    first, then the local end of the last segment entry of the clip
    before. *)
Fixpoint jsonOffsets (off : Z) (transcriptions : list TranscriptionResponse) : list Z :=
  match transcriptions with
  | [] => []
  | data :: rest =>
      off :: jsonOffsets (default off (segEnd <$> last (segments data))) rest
  end.

Definition typeErrorEnd : string :=
  "TypeError: Cannot read properties of undefined (reading 'end')".

(** The window requested for clip [k]. *)
Definition windowAt (k : nat) : Z * Z :=
  (Z.max 0 (Z.of_nat k * SEGMENT_DURATION - SEGMENT_OVERLAP), SEGMENT_DURATION).

(** The number of clips for a duration: the duration divided by
    [SEGMENT_DURATION], rounded up. *)
Definition clipCount (duration : Z) : nat :=
  Z.to_nat ((duration + SEGMENT_DURATION - 1) / SEGMENT_DURATION).

(** The path of clip [k]: [outputPath.replace('%d', k.toString())]. *)
Definition segmentPath (tmpdir : string) (k : Z) : string :=
  JS.replace "%d" (JS.toString k) (outputPath tmpdir).

(** The run of the media tool for clip [k]. *)
Definition extractionAt (tmpdir : string) (k : nat) : Extraction :=
  {| source := inputPath tmpdir;
     startTime := fst (windowAt k);
     duration := snd (windowAt k);
     output := segmentPath tmpdir (Z.of_nat k) |}.

(** The context passed on to the next request: the last 50 pieces of the
    previous text cut at spaces, joined with spaces again. *)
Definition contextText (previousText : string) : string :=
  JS.join " " (sliceLast 50 (JS.split " " previousText)).

(** [segmentPrompt] of turn [i] of the loop of [transcribeAudio]. *)
Definition segmentPrompt {f : Format} (prompt : string) (i : nat)
    (previousTranscription : option (Doc f)) : string :=
  match previousTranscription with
  | Some previous =>
      if (0 <? i)%nat && truthy previous then
        prompt +:+ " Previous context: " +:+ contextText (previousTextOf previous)
      else prompt
  | None => prompt
  end.

(** The transcript of no clip at all. *)
Definition emptyTranscript (f : Format) : Doc f :=
  match f with
  | vtt => ""
  | json => jsonInit
  end.

(** A probe that fails and a probe that finds no duration. *)
Definition probeFails (_ : Buffer) : Probe := ProbeError "ffprobe: invalid data".
Definition probeNoDuration (_ : Buffer) : Probe := ProbeOk None.

(** What precedes clip [k]: nothing for the first clip, else the reply to
    the clip before. *)
Definition previousOf {f : Format} (first : option (Doc f)) (replies : list (Doc f))
    (k : nat) : option (Doc f) :=
  match k with
  | O => first
  | S j => replies !! j
  end.

(** ** The batch: [processFiles] (fileUtils) and [main] *)

Definition liftResult {A} (r : Result A) : M A := fun w => (r, w).

(** The three lines [processFiles] prints, one per file: skipped, processed,
    or the error it caught. *)
Inductive Outcome :=
| Skipped (inputPath outputPath : string)
| Processed (inputPath outputPath : string)
| Failed (inputPath error : string).

(** [safeReadFile]: the error of the read is wrapped.  Here [files] holds
    every file the batch reads or writes. *)
Definition safeReadFile (path : string) : M Buffer :=
  fun w =>
    match readFile path w with
    | (Ok data, w1) => (Ok data, w1)
    | (Throw e, w1) =>
        (Throw ("Failed to read file " +:+ path +:+ ": Error: " +:+ e), w1)
    end.

Section Batch.

(** The type of the results with the test [if (result)] and the bytes
    [writeFile] stores for a result; the output path of an input path
    ([path.relative], [path.join], [path.dirname], [path.basename] and
    [path.extname] of the options); [ensureDirectoryExists], which acts on
    directories only; the processor and the optional writer. *)
Variable T : Type.
Variable truthyResult : T -> bool.
Variable encode : T -> Buffer.
Variable outputPathOf : string -> string.
Variable dirname : string -> string.
Variable ensureDirectoryExists : string -> Result unit.
Variable processor : Buffer -> string -> string -> M T.
Variable outputWriter : option (T -> string -> M unit).
Variable processExisting : bool.
Variable skipContent : bool.

(** The [try] block of the loop for one file. *)
Definition processContent (inputPath outputPath : string) : M T :=
  let* _ := liftResult (ensureDirectoryExists (dirname outputPath)) in
  let* content := (if skipContent then ret [] else safeReadFile inputPath) in
  let* result := processor content inputPath outputPath in
  let* _ :=
    (if truthyResult result then
       match outputWriter with
       | Some write => write result outputPath
       | None => writeFile outputPath (encode result)
       end
     else ret tt) in
  ret result.

(** One turn of the loop of [processFiles]: the results and the lines
    printed so far are extended; an error is caught and printed. *)
Definition processFile (inputPath : string) (acc : list T * list Outcome)
    : M (list T * list Outcome) :=
  fun w =>
    let outputPath := outputPathOf inputPath in
    if negb processExisting && bool_decide (is_Some (files w !! outputPath)) then
      (Ok (fst acc, snd acc ++ [Skipped inputPath outputPath]), w)
    else
      match processContent inputPath outputPath w with
      | (Ok result, w1) =>
          (Ok (fst acc ++ [result], snd acc ++ [Processed inputPath outputPath]), w1)
      | (Throw e, w1) =>
          (Ok (fst acc, snd acc ++ [Failed inputPath e]), w1)
      end.

Fixpoint processLoop (inputPaths : list string) (acc : list T * list Outcome)
    : M (list T * list Outcome) :=
  match inputPaths with
  | [] => ret acc
  | inputPath :: rest =>
      let* acc1 := processFile inputPath acc in
      processLoop rest acc1
  end.

(** [processFiles], given the outcome of [findMatchingFiles]. *)
Definition processFiles (outputDir : string) (found : Result (list string))
    : M (list T * list Outcome) :=
  let* _ := liftResult (ensureDirectoryExists outputDir) in
  let* inputPaths := liftResult found in
  processLoop inputPaths ([], []).

End Batch.

Definition DEFAULT_INPUT_DIR : string := "audio".
Definition DEFAULT_OUTPUT_DIR : string := "transcripts".
Definition AUDIO_EXTENSIONS : list string := [".mp3"; ".wav"; ".m4a"; ".ogg"; ".flac"].

(** [OUTPUT_EXTENSIONS[format]] *)
Definition outputExtension (f : Format) : string :=
  match f with
  | vtt => ".vtt"
  | json => ".json"
  end.

(** How [main] ends: [process.exit(1)], or the end of the function. *)
Inductive Exit := ExitFailure | Completed.

(** [const [a = d] = args]: the default stands in for a missing argument. *)
Definition argument (args : list string) (i : nat) (d : string) : string :=
  default d (args !! i).

Definition formatOf (s : string) : option Format :=
  if String.eqb s "vtt" then Some vtt
  else if String.eqb s "json" then Some json
  else None.

Section Main.

Variable tmpdir : string.
Variable ffprobe : Buffer -> Probe.
Variable ffmpeg : Buffer -> Z -> Z -> Result Buffer.
Variable whisper : forall f : Format, nat -> Request -> Reply f.

(** Of the file system: the search of the input directory with the audio
    extensions, the output path of an input path, the parent directory and
    the creation of directories.  [JSON.stringify] of a response. *)
Variable findMatchingFiles : string -> Result (list string).
Variable outputPathFor : string -> string -> string -> string -> string.
Variable dirname : string -> string.
Variable ensureDirectoryExists : string -> Result unit.
Variable stringify : TranscriptionResponse -> string.

Definition encodeDoc {f : Format} : Doc f -> Buffer :=
  match f with
  | vtt => String.list_byte_of_string
  | json => fun r => String.list_byte_of_string (stringify r)
  end.

(** [main] with the command line arguments and [OPENAI_API_KEY]. *)
Definition main (args : list string) (OPENAI_API_KEY : option string) : M Exit :=
  let inputDir := argument args 0 DEFAULT_INPUT_DIR in
  let outputDir := argument args 1 DEFAULT_OUTPUT_DIR in
  let model := argument args 2 "whisper-1" in
  let language := argument args 3 "en" in
  let format := argument args 4 "vtt" in
  let prompt := argument args 5 DEFAULT_SYSTEM_PROMPT in
  match formatOf format with
  | None => ret ExitFailure
  | Some f =>
      match OPENAI_API_KEY with
      | None => ret ExitFailure
      | Some apiKey =>
          if String.eqb apiKey "" then ret ExitFailure
          else
            fun w =>
              match processFiles (Doc f) truthy encodeDoc
                      (outputPathFor inputDir outputDir (outputExtension f))
                      dirname ensureDirectoryExists
                      (fun content _ _ =>
                         transcribeAudio tmpdir ffprobe ffmpeg whisper f content
                           apiKey model language prompt)
                      None false false
                      outputDir (findMatchingFiles inputDir) w with
              | (Ok _, w1) => (Ok Completed, w1)
              | (Throw _, w1) => (Ok ExitFailure, w1)
              end
      end
  end.

End Main.

(** The file an outcome is about, and whether it is a success line. *)
Definition outcomeInput (o : Outcome) : string :=
  match o with
  | Skipped inputPath _ => inputPath
  | Processed inputPath _ => inputPath
  | Failed inputPath _ => inputPath
  end.

Definition isProcessed (o : Outcome) : bool :=
  match o with
  | Processed _ _ => true
  | _ => false
  end.


(** Example collaborators of [main]. *)
Definition findTwo (_ : string) : Result (list string) :=
  Ok ["audio/a.mp3"; "audio/b.mp3"].
Definition outputFlat (_ outputDir ext inputPath : string) : string :=
  outputDir +:+ "/" +:+ inputPath +:+ ext.
Definition dirnameNone (_ : string) : string := ".".
Definition mkdirOk (_ : string) : Result unit := Ok tt.
Definition stringifyText (r : TranscriptionResponse) : string := text r.

(** A world with the two inputs of [findTwo]. *)
Definition twoInputs : World :=
  {| files := <["audio/a.mp3" := smallBuffer]> (<["audio/b.mp3" := smallBuffer]> ∅);
     extractions := []; requests := [] |}.

(** The same with both transcripts already written. *)
Definition twoDone : World :=
  {| files := <["transcripts/audio/a.mp3.vtt" := []]>
                (<["transcripts/audio/b.mp3.vtt" := []]> (files twoInputs));
     extractions := []; requests := [] |}.

(** A service that refuses every request, and the processor of [main] for
    cue tracks over a service. *)
Definition serviceDown (f : Format) (_ : nat) (_ : Request) : Reply f :=
  Failure (Some 401) "Unauthorized" None.

Definition batchProcessor (whisper : forall f : Format, nat -> Request -> Reply f)
    (content : Buffer) (_ _ : string) : M (Doc vtt) :=
  transcribeAudio "/tmp/t" probe1500 extractOk whisper vtt content
    "sk-test" "whisper-1" "en" "".

(** ** The order of the files (fileUtils) *)

(** [s.match(/\d+/g) || []]: the maximal runs of decimal digits of [s], from
    left to right; [run] is the run being read. *)
Fixpoint matchDigits (run s : string) : list string :=
  match s with
  | EmptyString =>
      match run with
      | EmptyString => []
      | _ => [run]
      end
  | String c s' =>
      if JS.isDigit c then matchDigits (run +:+ String c EmptyString) s'
      else match run with
           | EmptyString => matchDigits EmptyString s'
           | _ => run :: matchDigits EmptyString s'
           end
  end.

(** [parseInt(s, 10)] of a string that starts with a digit, as every match
    of [\d+] does: the value of its leading digits.  The source holds it in
    a double, which is this value up to 2^53 and the nearest double above;
    the rounding is not modelled, and what is stated about the value of a
    difference is stated below 2^53. *)
Fixpoint parseIntFrom (acc : Z) (s : string) : Z :=
  match s with
  | EmptyString => acc
  | String c s' =>
      if JS.isDigit c then parseIntFrom (10 * acc + JS.digitValue c) s' else acc
  end.

Definition parseInt (s : string) : Z := parseIntFrom 0 s.

Section NaturalSort.

(** [path.sep], and [a.localeCompare(b)] of the host. *)
Variable sep : ascii.
Variable localeCompare : string -> string -> Z.

(** The inner loop: the first pair of numbers that differ decides. *)
Fixpoint compareNumbers (aNumbers bNumbers : list string) : option Z :=
  match aNumbers, bNumbers with
  | x :: aRest, y :: bRest =>
      let aNum := parseInt x in
      let bNum := parseInt y in
      if negb (aNum =? bNum) then Some (aNum - bNum)
      else compareNumbers aRest bRest
  | _, _ => None
  end.

(** One turn of the outer loop; [None] when the turn does not return. *)
Definition compareSegment (aSegment bSegment : string) : option Z :=
  let aNumbers := matchDigits "" aSegment in
  let bNumbers := matchDigits "" bSegment in
  match compareNumbers aNumbers bNumbers with
  | Some d => Some d
  | None =>
      if negb (length aNumbers =? length bNumbers)%nat then
        Some (Z.of_nat (length aNumbers) - Z.of_nat (length bNumbers))
      else
        let segmentCompare := localeCompare aSegment bSegment in
        if negb (segmentCompare =? 0) then Some segmentCompare else None
  end.

Fixpoint compareSegments (aSegments bSegments : list string) : option Z :=
  match aSegments, bSegments with
  | aSegment :: aRest, bSegment :: bRest =>
      match compareSegment aSegment bSegment with
      | Some d => Some d
      | None => compareSegments aRest bRest
      end
  | _, _ => None
  end.

Definition naturalSort (a b : string) : Z :=
  let aSegments := JS.split sep a in
  let bSegments := JS.split sep b in
  match compareSegments aSegments bSegments with
  | Some d => d
  | None => Z.of_nat (length aSegments) - Z.of_nat (length bSegments)
  end.

End NaturalSort.

(** What [Array.prototype.sort] asks of a comparison function: the sign of
    [cmp y x] is the opposite of the sign of [cmp x y], and [cmp] is
    transitive. *)
Definition consistent {A} (cmp : A -> A -> Z) : Prop :=
  (forall x y, cmp y x = - cmp x y) /\
  (forall x y z, cmp x y <= 0 -> cmp y z <= 0 -> cmp x z <= 0).

(** The first pair that [cmp] tells apart decides; a list that is a prefix
    of the other comes first. *)
Fixpoint lexCompare {A} (cmp : A -> A -> Z) (xs ys : list A) : Z :=
  match xs, ys with
  | x :: xs', y :: ys' =>
      if cmp x y =? 0 then lexCompare cmp xs' ys' else cmp x y
  | _, _ => Z.of_nat (length xs) - Z.of_nat (length ys)
  end.

(** [c1], and [c2] where [c1] sees no difference. *)
Definition thenCompare {A} (c1 c2 : A -> A -> Z) (x y : A) : Z :=
  if c1 x y =? 0 then c2 x y else c1 x y.

(** The numbers of a path segment. *)
Definition numbersOf (segment : string) : list Z :=
  parseInt <$> matchDigits "" segment.

(** A string without a decimal digit, and one made of digits only. *)
Fixpoint noDigit (s : string) : bool :=
  match s with
  | EmptyString => true
  | String c s' => negb (JS.isDigit c) && noDigit s'
  end.

Fixpoint onlyDigits (s : string) : bool :=
  match s with
  | EmptyString => true
  | String c s' => JS.isDigit c && onlyDigits s'
  end.

(** A text that can follow a number: it does not start with a digit. *)
Definition endsNumber (q : string) : bool :=
  match q with
  | EmptyString => true
  | String c _ => negb (JS.isDigit c)
  end.

(** A comparison of strings by their length, for examples. *)
Definition compareLength (x y : string) : Z :=
  Z.of_nat (String.length x) - Z.of_nat (String.length y).

(** * Properties *)

Example parse_ex : parseVTTTimestamp "01:02:03.450" = Some 3723450.
Proof. reflexivity. Qed.

Example format_ex : formatVTTTimestamp 3723450 = "01:02:03.450".
Proof. reflexivity. Qed.

Example format_ex2 : formatVTTTimestamp 5 = "00:00:00.005".
Proof. reflexivity. Qed.


(** ** TimeCodec round trip *)

Lemma isDigit_inv c :
  JS.isDigit c = true ->
  0 <= JS.digitValue c <= 9 /\ digitChar (JS.digitValue c) = c /\
  Ascii.eqb c ":" = false /\ Ascii.eqb c "." = false.
Proof.
  destruct c as [[] [] [] [] [] [] [] []]; cbn; try discriminate;
    intros _; repeat split; lia.
Qed.

Lemma range_forallb (P : Z -> bool) (n : nat) :
  forallb P (Z.of_nat <$> seq 0 n) = true ->
  forall z, 0 <= z < Z.of_nat n -> P z = true.
Proof.
  intros H z Hz. rewrite forallb_forall in H. apply H.
  apply in_map_iff. exists (Z.to_nat z). split; [lia|].
  apply in_seq. lia.
Qed.

Lemma padStart2_toString n :
  0 <= n < 100 -> JS.padStart 2 "0" (JS.toString n) = twoDigits n.
Proof.
  intros H.
  pose (P := fun n => String.eqb (JS.padStart 2 "0" (JS.toString n)) (twoDigits n)).
  assert (P n = true) as HP by (apply (range_forallb P 100); [vm_compute; reflexivity|lia]).
  apply String.eqb_eq, HP.
Qed.

Lemma padStart3_toString n :
  0 <= n < 1000 -> JS.padStart 3 "0" (JS.toString n) = threeDigits n.
Proof.
  intros H.
  pose (P := fun n => String.eqb (JS.padStart 3 "0" (JS.toString n)) (threeDigits n)).
  assert (P n = true) as HP by (apply (range_forallb P 1000); [vm_compute; reflexivity|lia]).
  apply String.eqb_eq, HP.
Qed.

Lemma string_app_empty_r (a : string) : a +:+ "" = a.
Proof. induction a as [|x a IH]; cbn; [reflexivity|]. unfold String.app in *. now rewrite IH. Qed.

Lemma string_app_assoc (a b c : string) : (a +:+ b) +:+ c = a +:+ (b +:+ c).
Proof. induction a as [|x a IH]; cbn; [reflexivity|]. unfold String.app in *. cbn. now rewrite IH. Qed.

Lemma string_length_app (a b : string) :
  String.length (a +:+ b) = (String.length a + String.length b)%nat.
Proof. induction a as [|x a IH]; cbn; [reflexivity|]. now rewrite <- IH. Qed.

Lemma padStart_app n k c (s t : string) :
  String.length t = k ->
  JS.padStart (n + k) c (s +:+ t) = JS.padStart n c s +:+ t.
Proof.
  intros Hk. unfold JS.padStart.
  rewrite string_length_app, Hk.
  replace (n + k - (String.length s + k))%nat with (n - String.length s)%nat by lia.
  now rewrite string_app_assoc.
Qed.

Ltac div_by q r := apply (Z.div_unique_pos _ _ q r); lia.
Ltac mod_by q r := apply (Z.mod_unique_pos _ _ q r); lia.

Lemma twoDigits_digits a b :
  0 <= a <= 9 -> 0 <= b <= 9 ->
  twoDigits (10 * a + b) = String (digitChar a) (String (digitChar b) EmptyString).
Proof.
  intros Ha Hb. unfold twoDigits.
  replace ((10 * a + b) / 10) with a by (div_by a b).
  replace ((10 * a + b) mod 10) with b by (mod_by a b).
  reflexivity.
Qed.

Lemma threeDigits_digits a b c :
  0 <= a <= 9 -> 0 <= b <= 9 -> 0 <= c <= 9 ->
  threeDigits (10 * (10 * a + b) + c) =
  String (digitChar a) (String (digitChar b) (String (digitChar c) EmptyString)).
Proof.
  intros Ha Hb Hc. unfold threeDigits.
  replace ((10 * (10 * a + b) + c) / 100) with a
    by (div_by a (10 * b + c)).
  replace ((10 * (10 * a + b) + c) mod 100) with (10 * b + c)
    by (mod_by a (10 * b + c)).
  now rewrite twoDigits_digits.
Qed.

(** Formatting a time below 100 hours, given by its four fields. *)
Lemma formatVTTTimestamp_fields H M S F :
  0 <= H < 100 -> 0 <= M < 60 -> 0 <= S < 60 -> 0 <= F < 1000 ->
  formatVTTTimestamp (1000 * H * 3600 + 1000 * M * 60 + (1000 * S + F)) =
  twoDigits H +:+ ":" +:+ twoDigits M +:+ ":" +:+ twoDigits S +:+ "." +:+ threeDigits F.
Proof.
  intros HH HM HS HF. unfold formatVTTTimestamp. cbv zeta.
  set (t := 1000 * H * 3600 + 1000 * M * 60 + (1000 * S + F)).
  assert (0 <= t) as Ht by (unfold t; lia).
  rewrite !Z.rem_mod_nonneg by lia.
  replace (t / (3600 * 1000)) with H
    by (unfold t; div_by H (1000 * M * 60 + (1000 * S + F))).
  replace (t mod (3600 * 1000)) with (1000 * M * 60 + (1000 * S + F))
    by (unfold t; mod_by H (1000 * M * 60 + (1000 * S + F))).
  replace ((1000 * M * 60 + (1000 * S + F)) / (60 * 1000)) with M
    by (div_by M (1000 * S + F)).
  replace (t mod (60 * 1000)) with (1000 * S + F)
    by (unfold t; mod_by (60 * H + M) (1000 * S + F)).
  unfold JS.toFixed3.
  replace (1000 * S + F <? 0) with false by (symmetry; apply Z.ltb_ge; lia).
  rewrite Z.abs_eq by lia.
  replace ((1000 * S + F) / 1000) with S
    by (div_by S F).
  replace ((1000 * S + F) mod 1000) with F
    by (mod_by S F).
  rewrite !padStart2_toString, padStart3_toString by lia.
  change ("" +:+ JS.toString S +:+ "." +:+ threeDigits F)
    with (JS.toString S +:+ ("." +:+ threeDigits F)).
  rewrite (padStart_app 2 4) by reflexivity.
  rewrite padStart2_toString by lia. reflexivity.
Qed.

(** A match of the timestamp pattern is made of nine digits and the three
    separators. *)
Lemma timestampAt_inv s g r :
  timestampAt s = Some (g, r) ->
  exists h1 h2 m1 m2 s1 s2 f1 f2 f3,
    g = String h1 (String h2 (String ":" (String m1 (String m2 (String ":"
          (String s1 (String s2 (String "." (String f1 (String f2
             (String f3 EmptyString))))))))))) /\
    s = g +:+ r /\
    JS.isDigit h1 = true /\ JS.isDigit h2 = true /\
    JS.isDigit m1 = true /\ JS.isDigit m2 = true /\
    JS.isDigit s1 = true /\ JS.isDigit s2 = true /\
    JS.isDigit f1 = true /\ JS.isDigit f2 = true /\ JS.isDigit f3 = true.
Proof.
  unfold timestampAt.
  destruct s as [|h1 [|h2 [|c1 [|m1 [|m2 [|c2 [|s1 [|s2 [|d [|f1 [|f2 [|f3 rest]]]]]]]]]]]];
    try discriminate.
  destruct (JS.isDigit h1) eqn:Eh1; [|discriminate].
  destruct (JS.isDigit h2) eqn:Eh2; [|discriminate].
  destruct (Ascii.eqb c1 ":") eqn:Ec1; [|discriminate].
  destruct (JS.isDigit m1) eqn:Em1; [|discriminate].
  destruct (JS.isDigit m2) eqn:Em2; [|discriminate].
  destruct (Ascii.eqb c2 ":") eqn:Ec2; [|discriminate].
  destruct (JS.isDigit s1) eqn:Es1; [|discriminate].
  destruct (JS.isDigit s2) eqn:Es2; [|discriminate].
  destruct (Ascii.eqb d ".") eqn:Ed; [|discriminate].
  destruct (JS.isDigit f1) eqn:Ef1; [|discriminate].
  destruct (JS.isDigit f2) eqn:Ef2; [|discriminate].
  destruct (JS.isDigit f3) eqn:Ef3; [|discriminate].
  cbn [andb]. intros [= <- <-].
  apply Ascii.eqb_eq in Ec1, Ec2, Ed. subst c1 c2 d.
  exists h1, h2, m1, m2, s1, s2, f1, f2, f3.
  repeat split; first [reflexivity|assumption].
Qed.

(** The value [parseVTTTimestamp] gives to nine digits and the three
    separators. *)
Lemma parseVTTTimestamp_digits h1 h2 m1 m2 s1 s2 f1 f2 f3 :
  JS.isDigit h1 = true -> JS.isDigit h2 = true ->
  JS.isDigit m1 = true -> JS.isDigit m2 = true ->
  JS.isDigit s1 = true -> JS.isDigit s2 = true ->
  JS.isDigit f1 = true -> JS.isDigit f2 = true -> JS.isDigit f3 = true ->
  parseVTTTimestamp
    (String h1 (String h2 (String ":" (String m1 (String m2 (String ":"
       (String s1 (String s2 (String "." (String f1 (String f2
          (String f3 EmptyString)))))))))))) =
  Some (1000 * (10 * JS.digitValue h1 + JS.digitValue h2) * 3600 +
        1000 * (10 * JS.digitValue m1 + JS.digitValue m2) * 60 +
        (1000 * (10 * JS.digitValue s1 + JS.digitValue s2) +
         (10 * (10 * JS.digitValue f1 + JS.digitValue f2) + JS.digitValue f3))).
Proof.
  intros Eh1 Eh2 Em1 Em2 Es1 Es2 Ef1 Ef2 Ef3.
  destruct (isDigit_inv _ Eh1) as (_ & _ & Kh1 & Ph1).
  destruct (isDigit_inv _ Eh2) as (_ & _ & Kh2 & Ph2).
  destruct (isDigit_inv _ Em1) as (_ & _ & Km1 & Pm1).
  destruct (isDigit_inv _ Em2) as (_ & _ & Km2 & Pm2).
  destruct (isDigit_inv _ Es1) as (_ & _ & Ks1 & Ps1).
  destruct (isDigit_inv _ Es2) as (_ & _ & Ks2 & Ps2).
  destruct (isDigit_inv _ Ef1) as (_ & _ & Kf1 & Pf1).
  destruct (isDigit_inv _ Ef2) as (_ & _ & Kf2 & Pf2).
  destruct (isDigit_inv _ Ef3) as (_ & _ & Kf3 & Pf3).
  unfold parseVTTTimestamp.
  cbn [JS.split]. rewrite Kh1, Kh2, Km1, Km2, Ks1, Ks2, Kf1, Kf2, Kf3.
  cbn [Ascii.eqb Bool.eqb fmap list_fmap JS.split].
  unfold JS.Number. cbn [JS.split].
  rewrite Ph1, Ph2, Pm1, Pm2, Ps1, Ps2, Pf1, Pf2, Pf3.
  cbn [Ascii.eqb Bool.eqb JS.digits String.length fmap option_fmap option_map].
  rewrite Eh1, Eh2, Em1, Em2, Es1, Es2, Ef1, Ef2, Ef3.
  cbn [fmap option_fmap option_map]. f_equal; lia.
Qed.

(** The two groups of a match of the cue pattern always parse: the last
    branch of [processCue] is never taken. *)
Lemma timestampMatch_parses s m :
  timestampMatch s = Some m ->
  exists t1 t2,
    parseVTTTimestamp (group1 m) = Some t1 /\
    parseVTTTimestamp (group2 m) = Some t2.
Proof.
  revert m. induction s as [|c s IH]; intros m; cbn [timestampMatch].
  - unfold matchHere. cbn. discriminate.
  - destruct (matchHere (String c s)) as [m'|] eqn:E.
    + intros [= <-]. unfold matchHere in E.
      destruct (timestampAt (String c s)) as [[g1 r1]|] eqn:E1; [|discriminate].
      destruct (JS.startsWith arrow r1); [|discriminate].
      destruct (timestampAt (JS.drop 5 r1)) as [[g2 r2]|] eqn:E2; [|discriminate].
      injection E as <-. cbn [group1 group2].
      apply timestampAt_inv in E1 as (a1 & a2 & a3 & a4 & a5 & a6 & a7 & a8 & a9 & -> & _ & H).
      apply timestampAt_inv in E2 as (b1 & b2 & b3 & b4 & b5 & b6 & b7 & b8 & b9 & -> & _ & H').
      destruct H as (? & ? & ? & ? & ? & ? & ? & ? & ?).
      destruct H' as (? & ? & ? & ? & ? & ? & ? & ? & ?).
      eexists _, _. split; apply parseVTTTimestamp_digits; assumption.
    + destruct (timestampMatch s) as [m'|]; [|discriminate].
      intros [= <-]. cbn [group1 group2]. apply IH. reflexivity.
Qed.

(** C10: formatting the parsed value of a well-formed [HH:MM:SS.mmm]
    timestamp gives the timestamp back:
    [formatVTTTimestamp(parseVTTTimestamp(s)) = s]. *)
Theorem format_parse_roundtrip (s : string) :
  wellFormedTimestamp s = true ->
  formatVTTTimestamp <$> parseVTTTimestamp s = Some s.
Proof.
  unfold wellFormedTimestamp.
  destruct (timestampAt s) as [[g r]|] eqn:E; [|discriminate].
  apply timestampAt_inv in E
    as (h1 & h2 & m1 & m2 & s1 & s2 & f1 & f2 & f3 & -> & -> & H).
  destruct H as (Eh1 & Eh2 & Em1 & Em2 & Es1 & Es2 & Ef1 & Ef2 & Ef3).
  destruct r; [|discriminate].
  intros Hlt. apply andb_prop in Hlt as [Hm%Z.ltb_lt Hs%Z.ltb_lt].
  rewrite string_app_empty_r.
  rewrite parseVTTTimestamp_digits by assumption.
  destruct (isDigit_inv _ Eh1) as (Bh1 & Ch1 & _).
  destruct (isDigit_inv _ Eh2) as (Bh2 & Ch2 & _).
  destruct (isDigit_inv _ Em1) as (Bm1 & Cm1 & _).
  destruct (isDigit_inv _ Em2) as (Bm2 & Cm2 & _).
  destruct (isDigit_inv _ Es1) as (Bs1 & Cs1 & _).
  destruct (isDigit_inv _ Es2) as (Bs2 & Cs2 & _).
  destruct (isDigit_inv _ Ef1) as (Bf1 & Cf1 & _).
  destruct (isDigit_inv _ Ef2) as (Bf2 & Cf2 & _).
  destruct (isDigit_inv _ Ef3) as (Bf3 & Cf3 & _).
  cbn [fmap option_fmap option_map]. f_equal.
  rewrite formatVTTTimestamp_fields by lia.
  rewrite !twoDigits_digits, threeDigits_digits by lia.
  rewrite Ch1, Ch2, Cm1, Cm2, Cs1, Cs2, Cf1, Cf2, Cf3. reflexivity.
Qed.

Lemma format_parse_roundtrip_witness :
  wellFormedTimestamp "01:02:03.450" = true /\
  formatVTTTimestamp <$> parseVTTTimestamp "01:02:03.450" = Some "01:02:03.450".
Proof.
  split; [reflexivity|]. apply (format_parse_roundtrip "01:02:03.450"). reflexivity.
Defined.


(** ** Stitcher: the discard rule *)

(** C1 (structured shape, evaluation at the failing input): stitching
    [clipA] and [clipB] leaves the running offset at 600 s after the first
    clip, and the word and the segment entry of the second clip that start at
    619 s, before offset + overlap = 620 s, are in the stitched result. *)
Theorem combineJSON_keeps_overlap_items :
  combineJSONLoop [clipA] jsonInit 0 =
    Ok ({| text := "first clip "; words := words clipA; segments := segments clipA |},
        600000) /\
  exists c,
    combineJSONTranscriptions [clipA; clipB] = Ok c /\
    In (exampleWord "clip" 619000 620000) (words c) /\
    In (exampleSegment 0 619000 620000 " clip") (segments c) /\
    619000 < 600000 + SEGMENT_OVERLAP.
Proof.
  split; [reflexivity|].
  eexists. split; [reflexivity|]. cbn. unfold SEGMENT_OVERLAP. intuition lia.
Qed.

(** The structured shape discards nothing at all: the stitched result has
    as many words and segment entries as the clips together. *)
Lemma combineJSONLoop_keeps_all docs c off c' off' :
  combineJSONLoop docs c off = Ok (c', off') ->
  length (words c') = (length (words c) + sum_list ((fun d => length (words d)) <$> docs))%nat /\
  length (segments c') =
    (length (segments c) + sum_list ((fun d => length (segments d)) <$> docs))%nat.
Proof.
  revert c off. induction docs as [|d ds IH]; intros c off; cbn [combineJSONLoop].
  - intros [= <- _]. cbn. lia.
  - destruct (last (segments d)) as [s|]; [|discriminate].
    intros H. apply IH in H as [H1 H2]. cbn [words segments] in H1, H2.
    rewrite length_app, length_fmap in H1. rewrite length_app, length_fmap in H2.
    cbn. lia.
Qed.

(** The cue-track shape does apply the rule: in a segment after the first a
    cue is appended exactly when its shifted start is at or after
    offset + overlap, and then with both times shifted. *)
Lemma processCue_later i cue st m t1 t2 :
  i <> 0%nat ->
  timestampMatch cue = Some m ->
  parseVTTTimestamp (group1 m) = Some t1 ->
  parseVTTTimestamp (group2 m) = Some t2 ->
  (t1 + timeOffset st < timeOffset st + SEGMENT_OVERLAP ->
     processCue i cue st = st) /\
  (timeOffset st + SEGMENT_OVERLAP <= t1 + timeOffset st ->
     exists block,
       processCue i cue st =
         {| combined := combined st +:+ block +:+ nl +:+ nl;
            kept := kept st ++ [{| cueStart := t1 + timeOffset st;
                                   cueEnd := t2 + timeOffset st;
                                   cueBlock := block |}];
            timeOffset := timeOffset st |}).
Proof.
  intros Hi Hm H1 H2. unfold processCue. rewrite Hm, H1, H2.
  replace (i =? 0)%nat with false by (symmetry; apply Nat.eqb_neq; exact Hi).
  cbn [orb]. split; intros H.
  - replace (timeOffset st + SEGMENT_OVERLAP <=? t1 + timeOffset st) with false
      by (symmetry; apply Z.leb_gt; lia).
    reflexivity.
  - replace (timeOffset st + SEGMENT_OVERLAP <=? t1 + timeOffset st) with true
      by (symmetry; apply Z.leb_le; lia).
    eexists. reflexivity.
Qed.

(** ** Stitcher: the running offset *)

Lemma processCue_timeOffset i cue st :
  timeOffset (processCue i cue st) = timeOffset st.
Proof.
  unfold processCue.
  destruct (timestampMatch cue) as [m|]; [|reflexivity].
  destruct (parseVTTTimestamp (group1 m)); [|reflexivity].
  destruct (parseVTTTimestamp (group2 m)); [|reflexivity].
  destruct (_ || _); reflexivity.
Qed.

Lemma cueLoop_timeOffset i lines cur st :
  timeOffset (cueLoop i lines cur st) = timeOffset st.
Proof.
  revert cur st. induction lines as [|line rest IH]; intros cur st; cbn; [reflexivity|].
  destruct (String.eqb (JS.trim line) ""); [|apply IH].
  destruct (String.eqb cur ""); [apply IH|].
  rewrite IH. apply processCue_timeOffset.
Qed.

Lemma combineVTTStep_timeOffset i t st :
  timeOffset (combineVTTStep i t st) =
  timeOffset st + (SEGMENT_DURATION - SEGMENT_OVERLAP).
Proof.
  unfold combineVTTStep. cbn [timeOffset]. rewrite cueLoop_timeOffset.
  destruct (i =? 0)%nat; reflexivity.
Qed.

Lemma combineVTTLoop_timeOffset i ts st :
  timeOffset (combineVTTLoop i ts st) =
  timeOffset st + (SEGMENT_DURATION - SEGMENT_OVERLAP) * Z.of_nat (length ts).
Proof.
  revert i st. induction ts as [|t ts IH]; intros i st; cbn [combineVTTLoop length].
  - lia.
  - rewrite IH, combineVTTStep_timeOffset. lia.
Qed.

Lemma combineJSONLoop_offset docs data c off c' off' :
  combineJSONLoop (docs ++ [data]) c off = Ok (c', off') ->
  segEnd <$> last (segments data) = Some off'.
Proof.
  revert c off. induction docs as [|d ds IH]; intros c off; cbn [combineJSONLoop app].
  - destruct (last (segments data)) as [s|]; [|discriminate].
    intros [= _ <-]. reflexivity.
  - destruct (last (segments d)) as [s|]; [|discriminate]. apply IH.
Qed.

(** C2 (as amended): in the cue-track shape the running offset advances by
    the nominal stride, segment length minus overlap (580 s), for every
    segment processed, whatever the cue times are; in the structured shape
    the offset after a segment is the end time of that segment's last
    segment entry in the segment's own local time. *)
Theorem stitcher_offsets (tracks : list string)
    (docs : list TranscriptionResponse) (data c : TranscriptionResponse) (off : Z) :
  combineJSONLoop (docs ++ [data]) jsonInit 0 = Ok (c, off) ->
  timeOffset (combineVTTLoop 0 tracks vttInit) =
    (SEGMENT_DURATION - SEGMENT_OVERLAP) * Z.of_nat (length tracks) /\
  segEnd <$> last (segments data) = Some off.
Proof.
  intros H. split.
  - rewrite combineVTTLoop_timeOffset. cbn [timeOffset vttInit]. lia.
  - eapply combineJSONLoop_offset, H.
Qed.

Lemma stitcher_offsets_witness :
  timeOffset (combineVTTLoop 0 [oneCueTrack; oneCueTrack] vttInit) = 1160000 /\
  segEnd <$> last (segments clipB) = Some 21000.
Proof.
  refine (stitcher_offsets [oneCueTrack; oneCueTrack] [clipA] clipB _ 21000 _).
  reflexivity.
Defined.

(** C2 fails as stated: after a one-cue track whose only cue ends at 5 s the
    cue-track offset is 580 s, not the measured end. *)
Lemma vtt_offset_not_measured :
  let st := combineVTTLoop 0 [oneCueTrack] vttInit in
  cueEnd <$> last (kept st) = Some 5000 /\
  timeOffset st = SEGMENT_DURATION - SEGMENT_OVERLAP /\
  Some (timeOffset st) <> cueEnd <$> last (kept st).
Proof. vm_compute. repeat split; congruence. Qed.

(** ** Stitcher: the text of the structured shape *)

Lemma combineJSONLoop_text docs c off c' off' :
  combineJSONLoop docs c off = Ok (c', off') ->
  text c' = text c +:+ clipTexts docs.
Proof.
  revert c off. induction docs as [|d ds IH]; intros c off; cbn [combineJSONLoop clipTexts foldr].
  - intros [= <- _]. now rewrite string_app_empty_r.
  - destruct (last (segments d)) as [s|]; [|discriminate].
    intros H. apply IH in H. rewrite H. cbn [text].
    fold (clipTexts ds). now rewrite !string_app_assoc.
Qed.

(** C6 (as amended): the [text] of the stitched structured transcript is the
    concatenation of the per-clip [text] fields returned by the service, in
    order, each followed by a single space. *)
Theorem combineJSON_text (docs : list TranscriptionResponse) (c : TranscriptionResponse) :
  combineJSONTranscriptions docs = Ok c ->
  text c = clipTexts docs.
Proof.
  unfold combineJSONTranscriptions.
  destruct (combineJSONLoop docs jsonInit 0) as [[c' off]|e] eqn:E; [|discriminate].
  intros [= <-]. apply combineJSONLoop_text in E. exact E.
Qed.

Lemma combineJSON_text_witness :
  exists c, combineJSONTranscriptions [clipA; clipB] = Ok c /\
            text c = "first clip clip second ".
Proof.
  eexists. split; [reflexivity|].
  apply (combineJSON_text [clipA; clipB]). reflexivity.
Defined.

(** C6 fails as stated: the stitched text of [clipA] and [clipB] is not the
    kept segment entries' text joined with a space, it is the two per-clip
    texts one after the other. *)
Lemma combineJSON_text_not_rebuilt :
  exists c,
    combineJSONTranscriptions [clipA; clipB] = Ok c /\
    text c <> JS.join " " (segText <$> segments c) /\
    text c = text clipA +:+ " " +:+ text clipB +:+ " ".
Proof.
  eexists. split; [reflexivity|]. split; [|reflexivity].
  vm_compute. discriminate.
Qed.

(** ** Segmenter *)

(** C3 (evaluation at the failing inputs): for 1190 s of audio the Segmenter
    requests the windows [0, 600) and [580, 1180) only, so no window holds
    the time 1185 s; for 1500 s it requests three windows and the second
    reaches into the third by 0 s, not by the 20 s overlap. *)
Theorem descriptors_gap_and_overlap :
  descriptors 1190000 = [(0, 600000); (580000, 600000)] /\
  (forall d, In d (descriptors 1190000) -> ~ covers d 1185000) /\
  descriptors 1500000 = [(0, 600000); (580000, 600000); (1180000, 600000)] /\
  overlapWith (580000, 600000) (1180000, 600000) = 0.
Proof.
  split; [reflexivity|]. split; [|split; reflexivity].
  change (descriptors 1190000) with [(0, 600000); (580000, 600000)].
  intros d [<-|[<-|[]]]; unfold covers; cbn; lia.
Qed.

(** ** Stitcher: order of the stitched cues *)

Lemma ordered_weaken lo lo' hi hi' l :
  lo' <= lo -> hi <= hi' -> ordered lo hi l -> ordered lo' hi' l.
Proof.
  revert lo lo'. induction l as [|c l IH]; intros lo lo' Hlo Hhi; cbn; [trivial|].
  intros (H1 & H2 & H3 & H4). repeat split; try lia.
  apply (IH (snd c)); [lia|exact Hhi|exact H4].
Qed.

Lemma ordered_app lo mid hi l1 l2 :
  lo <= mid <= hi -> ordered lo mid l1 -> ordered mid hi l2 ->
  ordered lo hi (l1 ++ l2).
Proof.
  revert lo. induction l1 as [|c l1 IH]; intros lo Hb; cbn.
  - intros _ H. apply (ordered_weaken mid lo hi hi); [lia|lia|exact H].
  - intros (H1 & H2 & H3 & H4) H. repeat split; try lia.
    apply IH; [lia|exact H4|exact H].
Qed.

Lemma ordered_filter i lo hi l :
  ordered lo hi l ->
  ordered (if (i =? 0)%nat then lo else Z.max lo SEGMENT_OVERLAP) hi
    (List.filter (keepTime i) l).
Proof.
  unfold keepTime. destruct (i =? 0)%nat; cbn [orb].
  - intros H. replace (List.filter (fun _ => true) l) with l; [exact H|].
    clear H. induction l as [|c l IH]; cbn; [reflexivity|]. now rewrite <- IH.
  - revert lo. induction l as [|c l IH]; intros lo; cbn; [trivial|].
    intros (H1 & H2 & H3 & H4).
    destruct (SEGMENT_OVERLAP <=? fst c) eqn:E.
    + apply Z.leb_le in E. cbn. repeat split; try lia.
      apply (ordered_weaken (Z.max (snd c) SEGMENT_OVERLAP) _ hi hi); [lia|lia|].
      apply IH, H4.
    + apply (ordered_weaken (Z.max (snd c) SEGMENT_OVERLAP) _ hi hi); [lia|lia|].
      apply IH, H4.
Qed.

Lemma ordered_shift off lo hi l :
  ordered lo hi l -> ordered (lo + off) (hi + off) (shiftTime off <$> l).
Proof.
  revert lo. induction l as [|c l IH]; intros lo; cbn; [trivial|].
  intros (H1 & H2 & H3 & H4). repeat split; try lia. apply IH, H4.
Qed.

Lemma ordered_adjacent lo hi (l : list (Z * Z)) k c1 c2 :
  ordered lo hi l -> l !! k = Some c1 -> l !! S k = Some c2 ->
  fst c1 < fst c2 /\ snd c1 <= fst c2.
Proof.
  revert lo k. induction l as [|c l IH]; intros lo k; [discriminate|].
  intros (H1 & H2 & H3 & H4). destruct k as [|k]; cbn.
  - intros [= <-]. destruct l as [|c' l]; [discriminate|].
    intros [= <-]. destruct H4 as (H5 & _). lia.
  - apply (IH (snd c)), H4.
Qed.

Lemma cuesInOrder_ordered lo cues :
  cuesInOrder lo cues = true -> ordered lo SEGMENT_DURATION (times cues).
Proof.
  revert lo. induction cues as [|c cues IH]; intros lo; cbn; [trivial|].
  intros H. repeat (apply andb_prop in H as [H ?]).
  repeat split; try (apply Z.leb_le; assumption); try (apply Z.ltb_lt; assumption).
  apply IH. assumption.
Qed.

Lemma times_app a b : times (a ++ b) = times a ++ times b.
Proof. unfold times. apply fmap_app. Qed.

(** What one cue block adds to the kept cues. *)
Lemma processCue_times i cue st :
  times (kept (processCue i cue st)) =
  times (kept st) ++
  (shiftTime (timeOffset st) <$> List.filter (keepTime i) (cueTimes cue)).
Proof.
  unfold processCue, cueTimes.
  destruct (timestampMatch cue) as [m|]; [|now rewrite app_nil_r].
  destruct (parseVTTTimestamp (group1 m)) as [t1|]; [|now rewrite app_nil_r].
  destruct (parseVTTTimestamp (group2 m)) as [t2|]; [|now rewrite app_nil_r].
  cbn [List.filter]. unfold keepTime at 1. cbn [fst].
  replace (timeOffset st + SEGMENT_OVERLAP <=? t1 + timeOffset st)
    with (SEGMENT_OVERLAP <=? t1)
    by (destruct (Z.leb_spec SEGMENT_OVERLAP t1);
        [symmetry; apply Z.leb_le|symmetry; apply Z.leb_gt]; lia).
  destruct ((i =? 0)%nat || (SEGMENT_OVERLAP <=? t1)); cbn [kept].
  - rewrite times_app. reflexivity.
  - now rewrite app_nil_r.
Qed.

Lemma cueLoop_times i lines cur st :
  times (kept (cueLoop i lines cur st)) =
  times (kept st) ++
  (shiftTime (timeOffset st) <$> List.filter (keepTime i) (blockTimes lines cur)).
Proof.
  revert cur st. induction lines as [|line rest IH]; intros cur st;
    cbn [cueLoop blockTimes].
  - now rewrite app_nil_r.
  - destruct (String.eqb (JS.trim line) ""); [|apply IH].
    destruct (String.eqb cur ""); [apply IH|].
    rewrite IH, processCue_times, processCue_timeOffset.
    rewrite List.filter_app, fmap_app, app_assoc. reflexivity.
Qed.

Lemma shiftTime_0 (l : list (Z * Z)) : shiftTime 0 <$> l = l.
Proof.
  induction l as [|[s e] l IH]; cbn; [reflexivity|].
  unfold shiftTime at 1. cbn. rewrite !Z.add_0_r. now rewrite IH.
Qed.

Lemma localCues_times i t :
  times (localCues i t) = blockTimes (cueLines i t) "".
Proof.
  unfold localCues. rewrite cueLoop_times. cbn [kept vttInit timeOffset times fmap list_fmap app].
  rewrite shiftTime_0.
  induction (blockTimes (cueLines i t) "") as [|c l IH]; cbn; [reflexivity|].
  now rewrite IH.
Qed.

Lemma combineVTTStep_times i t st :
  times (kept (combineVTTStep i t st)) =
  times (kept st) ++
  (shiftTime (timeOffset st) <$> List.filter (keepTime i) (times (localCues i t))).
Proof.
  rewrite localCues_times. unfold combineVTTStep, cueLines. cbn [kept].
  rewrite cueLoop_times. destruct (i =? 0)%nat; reflexivity.
Qed.

(** The invariant of the outer loop: the cues kept so far form a chain that
    ends no later than offset + overlap. *)
Lemma combineVTTLoop_ordered i ts st :
  saneClips i ts = true ->
  0 <= timeOffset st ->
  (i = 0%nat -> kept st = []) ->
  ordered 0 (timeOffset st + SEGMENT_OVERLAP) (times (kept st)) ->
  exists hi, ordered 0 hi (times (kept (combineVTTLoop i ts st))).
Proof.
  revert i st. induction ts as [|t ts IH]; intros i st Hs Hoff Hk Hord;
    cbn [combineVTTLoop].
  - eexists. exact Hord.
  - cbn [saneClips] in Hs. apply andb_prop in Hs as [Ht Hs].
    apply cuesInOrder_ordered in Ht.
    apply (IH (S i)); [exact Hs| | discriminate |].
    + rewrite combineVTTStep_timeOffset. unfold SEGMENT_DURATION, SEGMENT_OVERLAP. lia.
    + rewrite combineVTTStep_timeOffset, combineVTTStep_times.
      replace (timeOffset st + (SEGMENT_DURATION - SEGMENT_OVERLAP) + SEGMENT_OVERLAP)
        with (SEGMENT_DURATION + timeOffset st) by lia.
      apply (ordered_filter i) in Ht.
      apply (ordered_shift (timeOffset st)) in Ht.
      destruct i as [|i]; cbn [Nat.eqb] in Ht.
      * rewrite (Hk eq_refl). cbn [times fmap list_fmap app].
        eapply ordered_weaken; [| |exact Ht]; lia.
      * apply (ordered_app 0 (timeOffset st + SEGMENT_OVERLAP));
          [unfold SEGMENT_DURATION, SEGMENT_OVERLAP; lia|exact Hord|].
        replace (timeOffset st + SEGMENT_OVERLAP)
          with (Z.max 0 SEGMENT_OVERLAP + timeOffset st)
          by (unfold SEGMENT_OVERLAP; lia).
        exact Ht.
Qed.

(** C4 (as amended, cue-track shape): when the cues of every clip are in
    timeline order inside the nominal 600 s clip window (each cue starts no
    earlier than the previous one ends and ends after it starts), the cues
    kept in the stitched track have strictly increasing start times and no
    cue ends after the next one starts. *)
Theorem combineVTT_monotone (transcriptions : list string) (k : nat) (c1 c2 : Cue) :
  saneClips 0 transcriptions = true ->
  kept (combineVTTLoop 0 transcriptions vttInit) !! k = Some c1 ->
  kept (combineVTTLoop 0 transcriptions vttInit) !! S k = Some c2 ->
  cueStart c1 < cueStart c2 /\ cueEnd c1 <= cueStart c2.
Proof.
  intros Hs H1 H2.
  destruct (combineVTTLoop_ordered 0 transcriptions vttInit Hs) as [hi Hord];
    [cbn; lia|reflexivity|cbn; trivial|].
  apply (ordered_adjacent 0 hi _ k (cueStart c1, cueEnd c1) (cueStart c2, cueEnd c2)) in Hord.
  - exact Hord.
  - unfold times. rewrite list_lookup_fmap, H1. reflexivity.
  - unfold times. rewrite list_lookup_fmap, H2. reflexivity.
Qed.

Lemma combineVTT_monotone_witness :
  saneClips 0 [trackA; trackB] = true /\
  595000 < 600000 /\ 600000 <= 600000.
Proof.
  split; [reflexivity|].
  exact (combineVTT_monotone [trackA; trackB] 1
           {| cueStart := 595000; cueEnd := 600000;
              cueBlock := "00:09:55.000 --> 00:10:00.000" +:+ nl +:+ "world" |}
           {| cueStart := 600000; cueEnd := 605000;
              cueBlock := "00:10:00.000 --> 00:10:05.000" +:+ nl +:+ "again" |}
           eq_refl eq_refl eq_refl).
Defined.

(** C4 fails as stated: nothing reorders or rejects what the service
    returns.  A cue track, or a structured result, whose second item starts
    before the first is stitched as it is. *)
Lemma stitched_not_monotone :
  cueStart <$> kept (combineVTTLoop 0 [unorderedTrack] vttInit) = [10000; 0] /\
  (exists c, combineJSONTranscriptions [unorderedDoc] = Ok c /\
             segStart <$> segments c = [10000; 0] /\
             wordStart <$> words c = [10000; 0]) /\
  ~ (10000 <= 0).
Proof.
  split; [reflexivity|]. split; [|lia].
  eexists. split; [reflexivity|]. split; reflexivity.
Qed.

(** In the structured shape the offset is replaced by the local end of the
    last clip, it is not added to: the third of three full 600 s clips is
    stamped with the times of the second. *)
Example combineJSON_third_clip :
  exists c,
    combineJSONTranscriptions [fullClip "a"; fullClip "b"; fullClip "c"] = Ok c /\
    segStart <$> segments c = [0; 600000; 600000] /\
    segEnd <$> segments c = [600000; 1200000; 1200000].
Proof. eexists. split; [reflexivity|]. split; reflexivity. Qed.

(** ** The scenario of 1500 s *)

(** C5 (evaluation at the failing input): for 1500 s of audio the Segmenter requests the windows
    (0 s, 600 s), (580 s, 600 s) and (1180 s, 600 s): the third starts at
    1180 s, not at 1160 s.  The stitcher shifts the third clip by 1160 s all
    the same.  With the synthetic Transcriber the stitched track has 15 cues
    and no cue twice, but the cues of the third clip are written 20 s before
    their place in the audio ([cue 12], heard from 1200 s to 1300 s, is
    written from 1180 s to 1280 s) and the track ends at 1480 s: it does not
    span the 1500 s.  On the windows the claim states, the same stitcher
    writes these cues at their place, up to 1500 s. *)
Theorem scenario_1500_third_window :
  descriptors 1500000 = [(0, 600000); (580000, 600000); (1180000, 600000)] /\
  descriptors 1500000 <> [(0, 600000); (580000, 600000); (1160000, 340000)] /\
  let st := combineVTTLoop 0 (syntheticRun 1500000 (descriptors 1500000)) vttInit in
  let claimed :=
    combineVTTLoop 0
      (syntheticRun 1500000 [(0, 600000); (580000, 600000); (1160000, 340000)])
      vttInit in
  length (kept st) = 15%nat /\
  NoDup (cueBlock <$> kept st) /\
  times (kept st) =
    [(0, 100000); (100000, 200000); (200000, 300000); (300000, 400000);
     (400000, 500000); (500000, 600000); (600000, 700000); (700000, 800000);
     (800000, 900000); (900000, 1000000); (1000000, 1100000); (1100000, 1180000);
     (1180000, 1280000); (1280000, 1380000); (1380000, 1480000)] /\
  cueBlock <$> drop 12 (kept st) =
    ["00:19:40.000 --> 00:21:20.000" +:+ nl +:+ "cue 12";
     "00:21:20.000 --> 00:23:00.000" +:+ nl +:+ "cue 13";
     "00:23:00.000 --> 00:24:40.000" +:+ nl +:+ "cue 14"] /\
  Forall (fun c => cueEnd c <= 1480000) (kept st) /\
  times (kept claimed) =
    [(0, 100000); (100000, 200000); (200000, 300000); (300000, 400000);
     (400000, 500000); (500000, 600000); (600000, 700000); (700000, 800000);
     (800000, 900000); (900000, 1000000); (1000000, 1100000); (1100000, 1180000);
     (1200000, 1300000); (1300000, 1400000); (1400000, 1500000)] /\
  cueBlock <$> drop 12 (kept claimed) =
    ["00:20:00.000 --> 00:21:40.000" +:+ nl +:+ "cue 12";
     "00:21:40.000 --> 00:23:20.000" +:+ nl +:+ "cue 13";
     "00:23:20.000 --> 00:25:00.000" +:+ nl +:+ "cue 14"].
Proof.
  split; [reflexivity|]. split; [vm_compute; discriminate|]. cbv zeta.
  remember (kept (combineVTTLoop 0 (syntheticRun 1500000 (descriptors 1500000)) vttInit))
    as l eqn:E.
  remember (kept (combineVTTLoop 0
              (syntheticRun 1500000 [(0, 600000); (580000, 600000); (1160000, 340000)])
              vttInit)) as l' eqn:E'.
  vm_compute in E, E'. subst l l'.
  split; [reflexivity|]. split.
  { apply (bool_decide_unpack _). vm_compute. exact I. }
  split; [reflexivity|]. split; [reflexivity|]. split.
  { repeat constructor; cbn; lia. }
  split; reflexivity.
Qed.

(** ** Paths of the temporary files *)

Lemma string_app_cons c (a b : string) : String c a +:+ b = String c (a +:+ b).
Proof. reflexivity. Qed.

Lemma tail5_cons c s :
  (5 <= String.length s)%nat -> tail5 (String c s) = tail5 s.
Proof.
  intros H. unfold tail5. cbn [String.length].
  replace (S (String.length s) - 5)%nat with (S (String.length s - 5)) by lia.
  reflexivity.
Qed.

Lemma tail5_app x s :
  (5 <= String.length s)%nat -> tail5 (x +:+ s) = tail5 s.
Proof.
  intros H. induction x as [|c x IH]; [reflexivity|].
  rewrite string_app_cons, tail5_cons; [exact IH|].
  rewrite string_length_app. lia.
Qed.

Lemma hasChar_uint d : hasChar "t" (NilEmpty.string_of_uint d) = false.
Proof. induction d; cbn; auto. Qed.

Lemma hasChar_toString n : hasChar "t" (JS.toString n) = false.
Proof.
  unfold JS.toString, NilZero.string_of_int, NilZero.string_of_uint.
  destruct (Z.to_int n) as [d|d]; destruct d; cbn; auto using hasChar_uint.
Qed.

Lemma tail5_number c0 r :
  c0 <> "t"%char -> hasChar "t" r = false ->
  tail5 (String c0 (r +:+ ".mp3")) <> "t.mp3".
Proof.
  revert c0. induction r as [|c r IH]; intros c0 Hc Hr.
  - cbn. intros [= E]. congruence.
  - cbn [hasChar] in Hr. apply orb_false_elim in Hr as [Hc' Hr].
    rewrite string_app_cons, tail5_cons.
    + apply IH; [|exact Hr]. intros ->. discriminate.
    + cbn [String.length]. rewrite string_length_app. cbn. lia.
Qed.

Lemma replace_template r t :
  exists X,
    JS.replace "%d" r (t +:+ "/segment-%d.mp3") = X +:+ "-%d.mp3" \/
    JS.replace "%d" r (t +:+ "/segment-%d.mp3") = X +:+ String "-" (r +:+ ".mp3").
Proof.
  induction t as [|c t IH].
  - exists "/segment". right. reflexivity.
  - rewrite string_app_cons. cbn [JS.replace String.length JS.drop].
    destruct (JS.startsWith "%d" (String c (t +:+ "/segment-%d.mp3"))).
    + destruct t as [|c' t].
      * exists (r +:+ "segment"). left.
        change ("" +:+ "/segment-%d.mp3") with ("/" +:+ "segment" +:+ "-%d.mp3").
        cbn [JS.drop]. now rewrite string_app_assoc.
      * exists (r +:+ t +:+ "/segment"). left.
        rewrite string_app_cons. cbn [JS.drop].
        change "/segment-%d.mp3" with ("/segment" +:+ "-%d.mp3").
        now rewrite !string_app_assoc.
    + destruct IH as [X [IH|IH]]; exists (String c X); rewrite IH; [left|right]; reflexivity.
Qed.

Lemma segmentPath_ne_input tmpdir i :
  JS.replace "%d" (JS.toString i) (outputPath tmpdir) <> inputPath tmpdir.
Proof.
  intros E. apply (f_equal tail5) in E.
  unfold outputPath, inputPath in E.
  rewrite (tail5_app _ "/input.mp3") in E by (cbn; lia).
  destruct (replace_template (JS.toString i) (tempDir tmpdir)) as [X [H|H]];
    rewrite H in E.
  - rewrite (tail5_app X "-%d.mp3") in E by (cbn; lia). discriminate.
  - rewrite tail5_app in E.
    + revert E. apply tail5_number; [discriminate|apply hasChar_toString].
    + cbn [String.length]. rewrite string_length_app. cbn. lia.
Qed.

(** ** The loop of the Segmenter ends *)

Lemma segmentWindows_fuel fuel k duration cur :
  duration - cur <= Z.of_nat fuel * SEGMENT_DURATION ->
  segmentWindows (fuel + k) duration cur = segmentWindows fuel duration cur.
Proof.
  revert cur. induction fuel as [|fuel IH]; intros cur H.
  - cbn [Nat.add segmentWindows]. destruct k as [|k]; [reflexivity|].
    cbn [segmentWindows].
    replace (cur <? duration) with false by (symmetry; apply Z.ltb_ge; lia).
    reflexivity.
  - cbn [Nat.add segmentWindows]. destruct (cur <? duration); [|reflexivity].
    f_equal. apply IH. unfold SEGMENT_DURATION in *. lia.
Qed.

Lemma splitFuel_enough duration :
  duration - 0 <= Z.of_nat (splitFuel duration) * SEGMENT_DURATION.
Proof.
  unfold splitFuel, SEGMENT_DURATION.
  destruct (Z.le_gt_cases 0 duration) as [H|H].
  - rewrite Nat2Z.inj_succ, Z2Nat.id by (apply Z.div_pos; lia).
    pose proof (Z.mul_succ_div_gt duration (10 * 60 * 1000)). lia.
  - lia.
Qed.

(** More turns than [splitFuel] change nothing: the loop has ended. *)
Lemma descriptors_fuel duration k :
  segmentWindows (splitFuel duration + k) duration 0 = descriptors duration.
Proof. apply segmentWindows_fuel, splitFuel_enough. Qed.

(** The windows requested: window [k] starts [SEGMENT_OVERLAP] before the
    nominal boundary [k * SEGMENT_DURATION] (at 0 for the first) and is
    [SEGMENT_DURATION] long, as long as the boundary lies inside the
    audio. *)
Lemma segmentWindows_lookup fuel duration cur k d :
  segmentWindows fuel duration cur !! k = Some d ->
  d = (Z.max 0 (cur + Z.of_nat k * SEGMENT_DURATION - SEGMENT_OVERLAP), SEGMENT_DURATION) /\
  cur + Z.of_nat k * SEGMENT_DURATION < duration.
Proof.
  revert cur k. induction fuel as [|fuel IH]; intros cur k; cbn [segmentWindows];
    [discriminate|].
  destruct (cur <? duration) eqn:E; [|discriminate]. apply Z.ltb_lt in E.
  destruct k as [|k]; cbn [lookup list_lookup].
  - intros [= <-]. split; [f_equal; f_equal; lia|lia].
  - intros H. apply IH in H as [-> H]. split; [f_equal; f_equal; lia|lia].
Qed.

Section PipelineFacts.

Context (tmpdir : string) (ffprobe : Buffer -> Probe)
        (ffmpeg : Buffer -> Z -> Z -> Result Buffer)
        (whisper : forall f : Format, nat -> Request -> Reply f).


Lemma splitLoop_fuel fuel k duration segs idx cur w :
  duration - cur <= Z.of_nat fuel * SEGMENT_DURATION ->
  splitLoop tmpdir ffmpeg (fuel + k) duration segs idx cur w =
  splitLoop tmpdir ffmpeg fuel duration segs idx cur w.
Proof.
  revert segs idx cur w. induction fuel as [|fuel IH]; intros segs idx cur w H.
  - cbn [Nat.add splitLoop]. destruct k as [|k]; [reflexivity|].
    cbn [splitLoop].
    replace (cur <? duration) with false by (symmetry; apply Z.ltb_ge; lia).
    reflexivity.
  - cbn [Nat.add splitLoop]. destruct (cur <? duration); [|reflexivity].
    unfold bind. destruct (runFfmpeg _ _ _ _ _ _) as [[[]|e] w1]; [|reflexivity].
    apply IH. unfold SEGMENT_DURATION in *. lia.
Qed.

(** *** What each step does to the files and to the requests *)

Lemma runFfmpeg_spec src start dur out w r w' :
  runFfmpeg ffmpeg src start dur out w = (r, w') ->
  requests w' = requests w /\
  extractions w' = extractions w ++
    [{| source := src; startTime := start; duration := dur; output := out |}] /\
  ((r = Ok tt /\ exists clip, files w' = <[out := clip]> (files w)) \/
   ((exists e, r = Throw e) /\ files w' = files w)).
Proof.
  unfold runFfmpeg. destruct (files w !! src) as [data|].
  - destruct (ffmpeg data start dur) as [clip|e]; intros [= <- <-]; cbn; eauto 8.
  - intros [= <- <-]. cbn. eauto 8.
Qed.

Lemma splitLoop_spec fuel duration segs idx cur w r w' :
  splitLoop tmpdir ffmpeg fuel duration segs idx cur w = (r, w') ->
  requests w' = requests w /\
  (forall p, is_Some (files w !! p) -> is_Some (files w' !! p)) /\
  (forall segs', r = Ok segs' ->
     windowsOf (extractions w') =
       windowsOf (extractions w) ++ segmentWindows fuel duration cur /\
     forall p, p ∈ segs' ->
       p ∈ segs \/
       (is_Some (files w' !! p) /\
        exists i, p = JS.replace "%d" (JS.toString i) (outputPath tmpdir))).
Proof.
  revert segs idx cur w. induction fuel as [|fuel IH]; intros segs idx cur w;
    cbn [splitLoop segmentWindows].
  - intros [= <- <-]. split; [reflexivity|]. split; [auto|].
    intros segs' [= <-]. rewrite app_nil_r. auto.
  - destruct (cur <? duration).
    + unfold bind.
      destruct (runFfmpeg _ _ _ _ _ _) as [[[]|e] w1] eqn:E;
        apply runFfmpeg_spec in E as (Hr & Hx & [[Hrun [clip Hf]]|[[e' He] Hf]]).
      * intros H. apply IH in H as (Hr' & Hp & Hs).
        split; [congruence|]. split.
        -- intros p Hp0. apply Hp. rewrite Hf.
           destruct (decide (JS.replace "%d" (JS.toString idx) (outputPath tmpdir) = p))
             as [->|Hne]; [rewrite lookup_insert_eq; eauto|].
           rewrite lookup_insert_ne by exact Hne. exact Hp0.
        -- intros segs' Hok. destruct (Hs segs' Hok) as [Hw Hin]. split.
           ++ rewrite Hw, Hx. unfold windowsOf. rewrite fmap_app, <- app_assoc.
              reflexivity.
           ++ intros p Hp0. destruct (Hin p Hp0) as [Hold|Hnew]; [|right; exact Hnew].
              apply elem_of_app in Hold as [Hold|Hold]; [left; exact Hold|].
              apply list_elem_of_singleton in Hold. subst p. right. split; [|eauto].
              apply Hp. rewrite Hf, lookup_insert_eq. eauto.
      * discriminate He.
      * discriminate Hrun.
      * intros [= <- <-]. split; [exact Hr|]. split; [rewrite Hf; auto|].
        intros segs' [=].
    + intros [= <- <-]. split; [reflexivity|]. split; [auto|].
      intros segs' [= <-]. rewrite app_nil_r. auto.
Qed.

Lemma rm_spec p force w r w' :
  rm p force w = (r, w') ->
  requests w' = requests w /\ extractions w' = extractions w /\
  (r = Ok tt ->
     files w' !! p = None /\
     forall q, q <> p -> files w' !! q = files w !! q).
Proof.
  unfold rm. destruct (files w !! p) eqn:E.
  - intros [= <- <-]. cbn. repeat split.
    + apply lookup_delete_eq.
    + intros q Hq. apply lookup_delete_ne. congruence.
  - destruct force; intros [= <- <-]; repeat split; auto; discriminate.
Qed.

Lemma splitAudioFile_requests buf w r w' :
  splitAudioFile tmpdir ffprobe ffmpeg buf w = (r, w') -> requests w' = requests w.
Proof.
  unfold splitAudioFile, bind, writeFile, throw, ret.
  destruct (ffprobe buf) as [err|fd].
  - destruct (rm _ _ _) as [[[]|e] w1] eqn:E; apply rm_spec in E as (Hr & _);
      intros [= <- <-]; exact Hr.
  - destruct (splitLoop _ _ _ _ _ _ _ _) as [[segs|e] w1] eqn:E;
      apply splitLoop_spec in E as (Hr & _); cbn [requests] in Hr.
    + destruct (rm _ _ _) as [[[]|e] w2] eqn:E2; apply rm_spec in E2 as (Hr2 & _);
        intros [= <- <-]; congruence.
    + intros [= <- <-]. exact Hr.
Qed.

(** A successful split: the probe answered, the media tool was run on the
    windows of [descriptors], every clip file is there, the copy of the
    input is gone and no other file is. *)
Lemma splitAudioFile_spec buf w segs w1 :
  splitAudioFile tmpdir ffprobe ffmpeg buf w = (Ok segs, w1) ->
  files w1 !! inputPath tmpdir = None /\
  (forall p, p ∈ segs -> is_Some (files w1 !! p)) /\
  (forall p, p <> inputPath tmpdir ->
     is_Some (files w !! p) -> is_Some (files w1 !! p)) /\
  exists fd, ffprobe buf = ProbeOk fd /\
    windowsOf (extractions w1) =
      windowsOf (extractions w) ++ descriptors (default 0 fd).
Proof.
  unfold splitAudioFile, bind, writeFile, throw, ret.
  destruct (ffprobe buf) as [err|fd].
  - destruct (rm _ _ _) as [[[]|e] w2]; discriminate.
  - destruct (splitLoop _ _ _ _ _ _ _ _) as [[segs'|e] w2] eqn:E;
      [|discriminate].
    apply splitLoop_spec in E as (_ & Hkeep & Hs).
    destruct (Hs segs' eq_refl) as [Hw Hin]. clear Hs.
    destruct (rm _ _ _) as [[[]|e] w3] eqn:E2; [|discriminate].
    apply rm_spec in E2 as (_ & Hx & Hf). destruct (Hf eq_refl) as [Hnone Hother].
    intros [= <- <-]. split; [exact Hnone|]. split; [|split].
    + intros p Hp. destruct (Hin p Hp) as [Hnil|[Hsome [i ->]]].
      * apply elem_of_nil in Hnil. contradiction.
      * rewrite Hother; [exact Hsome|]. apply segmentPath_ne_input.
    + intros p Hne Hp. rewrite Hother by exact Hne. apply Hkeep.
      cbn [files]. rewrite lookup_insert_ne by congruence. exact Hp.
    + exists fd. split; [reflexivity|]. rewrite Hx. exact Hw.
Qed.

Lemma transcribeAudioSegment_spec f buf apiKey model language prompt w :
  transcribeAudioSegment whisper f buf apiKey model language prompt w =
  (match whisper f (length (requests w))
           (directRequest f buf apiKey model language prompt) with
   | Success body => Ok body
   | Failure status message dataMessage =>
       Throw (transcriptionError status message dataMessage)
   end,
   {| files := files w; extractions := extractions w;
      requests := requests w ++ [directRequest f buf apiKey model language prompt] |}).
Proof.
  unfold transcribeAudioSegment, directRequest.
  destruct (whisper f _ _); reflexivity.
Qed.

Lemma transcribeAudioSegment_aborts f buf apiKey model language prompt w r w' :
  transcribeAudioSegment whisper f buf apiKey model language prompt w = (r, w') ->
  files w' = files w /\ failuresAbort whisper f w w' r.
Proof.
  rewrite transcribeAudioSegment_spec. intros [= <- <-]. cbn [files requests].
  split; [reflexivity|]. split; [eauto|].
  intros k req st msg dm Hk Hl Hf. cbn [requests] in Hk, Hl.
  assert (k = length (requests w)) as ->.
  { apply lookup_lt_Some in Hl. rewrite length_app in Hl. cbn in Hl. lia. }
  rewrite lookup_app_r, Nat.sub_diag in Hl by lia. injection Hl as <-.
  rewrite Hf. reflexivity.
Qed.

Lemma failuresAbort_throw {A B} f w w' e :
  failuresAbort (A := A) whisper f w w' (Throw e) ->
  failuresAbort (A := B) whisper f w w' (Throw e).
Proof.
  intros [Hn Ha]. split; [exact Hn|].
  intros k req st msg dm Hk Hl Hf.
  specialize (Ha k req st msg dm Hk Hl Hf). injection Ha as ->. reflexivity.
Qed.

Lemma transcribeLoop_spec f apiKey model language prompt segs i prev acc w r w' :
  transcribeLoop whisper f apiKey model language prompt segs i prev acc w = (r, w') ->
  files w' = files w /\ failuresAbort whisper f w w' r /\
  (forall ts, r = Ok ts ->
     length ts = (length acc + length segs)%nat /\
     length (requests w') = (length (requests w) + length segs)%nat).
Proof.
  revert i prev acc w. induction segs as [|seg rest IH]; intros i prev acc w;
    cbn [transcribeLoop].
  - intros [= <- <-]. split; [reflexivity|]. split.
    + split; [exists []; now rewrite app_nil_r|].
      intros k req st msg dm Hk Hl. apply lookup_lt_Some in Hl. lia.
    + intros ts [= <-]. cbn. lia.
  - unfold bind, readFile. destruct (files w !! seg) as [data|].
    + match goal with |- context [transcribeAudioSegment ?a ?b ?c ?d ?e ?g ?h ?w0] =>
        destruct (transcribeAudioSegment a b c d e g h w0) as [[t|e0] w1] eqn:E end.
      * pose proof E as E'. apply transcribeAudioSegment_aborts in E' as (Hf1 & [new1 Hn1] & Ha1).
        rewrite transcribeAudioSegment_spec in E. injection E as _ Hw1.
        intros H. apply IH in H as (Hf2 & ([new2 Hn2] & Ha2) & Hlen).
        split; [congruence|]. split.
        -- split; [exists (new1 ++ new2); rewrite Hn2, Hn1, app_assoc; reflexivity|].
           intros k req st msg dm Hk Hl Hfail.
           destruct (Nat.lt_ge_cases k (length (requests w1))) as [Hlt|Hge].
           ++ rewrite Hn2, lookup_app_l in Hl by exact Hlt.
              specialize (Ha1 k req st msg dm Hk Hl Hfail). discriminate.
           ++ exact (Ha2 k req st msg dm Hge Hl Hfail).
        -- intros ts Hok. destruct (Hlen ts Hok) as [L1 L2].
           rewrite length_app in L1. cbn in L1.
           subst w1. cbn [requests] in L2. rewrite length_app in L2. cbn in L2.
           cbn [length]. lia.
      * pose proof E as E'. apply transcribeAudioSegment_aborts in E' as (Hf1 & Ha1).
        intros [= <- <-]. split; [exact Hf1|].
        split; [exact (failuresAbort_throw _ _ _ _ Ha1)|]. intros ts [=].
    + intros [= <- <-]. split; [reflexivity|]. split.
      * split; [exists []; now rewrite app_nil_r|].
        intros k req st msg dm Hk Hl. apply lookup_lt_Some in Hl. lia.
      * intros ts [=].
Qed.


(** *** The direct path *)

(** C9: for a buffer of at most [MAX_FILE_SIZE] bytes, [transcribeAudio]
    sends exactly one request, which carries the whole buffer and the
    prompt as given, returns the answer to it unchanged (or throws the
    error of that one request), runs the media tool on nothing and leaves
    the files as they are; no duration is probed.  Splitting is therefore
    confined to larger buffers. *)
Theorem small_buffer_direct (f : Format) (audioBuffer : Buffer)
    (apiKey model language prompt : string) (w : World) :
  Z.of_nat (length audioBuffer) <= MAX_FILE_SIZE ->
  transcribeAudio tmpdir ffprobe ffmpeg whisper f audioBuffer apiKey model language
    prompt w =
  (match whisper f (length (requests w))
           (directRequest f audioBuffer apiKey model language prompt) with
   | Success body => Ok body
   | Failure status message dataMessage =>
       Throw (transcriptionError status message dataMessage)
   end,
   {| files := files w; extractions := extractions w;
      requests := requests w ++
        [directRequest f audioBuffer apiKey model language prompt] |}).
Proof.
  intros H. unfold transcribeAudio.
  replace (Z.of_nat (length audioBuffer) <=? MAX_FILE_SIZE) with true
    by (symmetry; apply Z.leb_le; exact H).
  apply transcribeAudioSegment_spec.
Qed.

(** *** Failures *)

(** C8 (as amended): if any transcription request sent during a run is
    answered with a failure (no status, or status 400, 401, 429 or any
    other), the run throws the error built from that failure and returns
    no transcript. *)
Theorem failed_request_aborts (f : Format) (audioBuffer : Buffer)
    (apiKey model language prompt : string) (w w' : World)
    (r : Result (Doc f)) (k : nat) (req : Request)
    (status : option Z) (message : string) (dataMessage : option string) :
  transcribeAudio tmpdir ffprobe ffmpeg whisper f audioBuffer apiKey model language
    prompt w = (r, w') ->
  (length (requests w) <= k)%nat ->
  requests w' !! k = Some req ->
  whisper f k req = Failure status message dataMessage ->
  r = Throw (transcriptionError status message dataMessage).
Proof.
  unfold transcribeAudio.
  destruct (Z.of_nat (length audioBuffer) <=? MAX_FILE_SIZE).
  - intros H. apply transcribeAudioSegment_aborts in H as (_ & _ & Ha).
    apply Ha.
  - unfold bind.
    destruct (splitAudioFile _ _ _ _ _) as [[segs|e] w1] eqn:E.
    + apply splitAudioFile_requests in E.
      destruct (transcribeLoop _ _ _ _ _ _ _ _ _ _ _) as [[ts|e] w2] eqn:E2;
        apply transcribeLoop_spec in E2 as (_ & (_ & Ha) & _).
      * intros Hrun Hk Hl Hf. rewrite E in Ha.
        assert (w' = w2) as ->
          by (destruct (combineTranscriptions ts); injection Hrun; auto).
        specialize (Ha k req status message dataMessage Hk Hl Hf). discriminate.
      * intros [= <- <-] Hk Hl Hf. rewrite E in Ha.
        specialize (Ha k req status message dataMessage Hk Hl Hf).
        injection Ha as ->. reflexivity.
    + apply splitAudioFile_requests in E.
      intros [= <- <-] Hk Hl. apply lookup_lt_Some in Hl. rewrite E in Hl. lia.
Qed.

(** *** The clip files *)

(** C7 (as amended): in a run that splits the audio and extracts all its
    clips, only the temporary copy of the input is removed; every
    extracted clip file is still there when the run ends, whether it
    returns a transcript or aborts: the files are those left by the
    split, and every other file that was there before the run is still
    there. *)
Theorem clips_remain (f : Format) (audioBuffer : Buffer)
    (apiKey model language prompt : string) (w w1 w' : World)
    (segs : list string) (r : Result (Doc f)) :
  MAX_FILE_SIZE < Z.of_nat (length audioBuffer) ->
  splitAudioFile tmpdir ffprobe ffmpeg audioBuffer w = (Ok segs, w1) ->
  transcribeAudio tmpdir ffprobe ffmpeg whisper f audioBuffer apiKey model language
    prompt w = (r, w') ->
  files w' = files w1 /\
  files w' !! inputPath tmpdir = None /\
  (forall p, p ∈ segs -> is_Some (files w' !! p)) /\
  (forall p, p <> inputPath tmpdir ->
     is_Some (files w !! p) -> is_Some (files w' !! p)).
Proof.
  intros Hbig Hsplit. unfold transcribeAudio.
  replace (Z.of_nat (length audioBuffer) <=? MAX_FILE_SIZE) with false
    by (symmetry; apply Z.leb_gt; exact Hbig).
  unfold bind. rewrite Hsplit.
  apply splitAudioFile_spec in Hsplit as (Hin & Hsegs & Hkeep & _).
  destruct (transcribeLoop _ _ _ _ _ _ _ _ _ _ _) as [[ts|e] w2] eqn:E2;
    apply transcribeLoop_spec in E2 as (Hf & _).
  - intros Hrun.
    assert (w' = w2) as ->
      by (destruct (combineTranscriptions ts); injection Hrun; auto).
    rewrite Hf. auto.
  - intros [= <- <-]. rewrite Hf. auto.
Qed.

End PipelineFacts.


(** ** Runs on a buffer above the size limit *)

Lemma bigBuffer_big : (Z.of_nat (length bigBuffer) <=? MAX_FILE_SIZE) = false.
Proof.
  unfold bigBuffer. rewrite length_replicate.
  apply Z.leb_gt. unfold MAX_FILE_SIZE. lia.
Qed.

Ltac run_big :=
  unfold runWith, transcribeAudio; rewrite bigBuffer_big;
  generalize bigBuffer; intros b.

Lemma split_big :
  fst (splitAudioFile "/tmp" probe1500 extractOk bigBuffer emptyWorld) = Ok clipPaths.
Proof. generalize bigBuffer. intros b. vm_compute. reflexivity. Qed.

Lemma busy_run_result :
  fst (runWith serviceBusy bigBuffer) =
  Throw "Rate limit exceeded. Please try again later.".
Proof. run_big. vm_compute. reflexivity. Qed.

Lemma busy_run_requests :
  length (requests (snd (runWith serviceBusy bigBuffer))) = 2%nat.
Proof. run_big. vm_compute. reflexivity. Qed.

Lemma run_pair (whisper : forall f : Format, nat -> Request -> Reply f) :
  transcribeAudio "/tmp" probe1500 extractOk whisper vtt bigBuffer
    "key" "whisper-1" "en" DEFAULT_SYSTEM_PROMPT emptyWorld =
  (fst (runWith whisper bigBuffer), snd (runWith whisper bigBuffer)).
Proof. unfold runWith. apply surjective_pairing. Qed.

Lemma small_buffer_direct_witness :
  Z.of_nat (length smallBuffer) <= MAX_FILE_SIZE /\
  transcribeAudio "/tmp" probe1500 extractOk serviceOk vtt smallBuffer
    "key" "whisper-1" "en" "" emptyWorld =
  (Ok trackB,
   {| files := ∅; extractions := [];
      requests := [directRequest vtt smallBuffer "key" "whisper-1" "en" ""] |}).
Proof.
  assert (Z.of_nat (length smallBuffer) <= MAX_FILE_SIZE) as H
    by (vm_compute; discriminate).
  split; [exact H|].
  exact (small_buffer_direct "/tmp" probe1500 extractOk serviceOk vtt smallBuffer
           "key" "whisper-1" "en" "" emptyWorld H).
Defined.

Lemma failed_request_aborts_witness :
  requests (snd (runWith serviceBusy bigBuffer)) !! 1%nat = Some secondRequest /\
  fst (runWith serviceBusy bigBuffer) =
  Throw "Rate limit exceeded. Please try again later.".
Proof.
  assert (requests (snd (runWith serviceBusy bigBuffer)) !! 1%nat = Some secondRequest)
    as H by (run_big; vm_compute; reflexivity).
  split; [exact H|].
  refine (failed_request_aborts "/tmp" probe1500 extractOk serviceBusy vtt bigBuffer
            "key" "whisper-1" "en" DEFAULT_SYSTEM_PROMPT emptyWorld
            (snd (runWith serviceBusy bigBuffer)) (fst (runWith serviceBusy bigBuffer))
            1 secondRequest (Some 429) "Too Many Requests" None
            (run_pair serviceBusy) _ H eq_refl).
  cbn. lia.
Defined.

(** C8 fails as stated: a second answer that is no cue track at all is not
    detected.  No cue is read from it, the run returns a transcript all the
    same, made of the cues of the first and of the third clip. *)
Lemma garbled_answer_not_fatal :
  localCues 1 garbledAnswer = [] /\
  length (requests (snd (runWith serviceGarbage bigBuffer))) = 3%nat /\
  fst (runWith serviceGarbage bigBuffer) =
    Ok (combineVTTTranscriptions [trackA; garbledAnswer; trackA]) /\
  cueStart <$> kept (combineVTTLoop 0 [trackA; garbledAnswer; trackA] vttInit) =
    [0; 595000; 1755000].
Proof.
  split; [vm_compute; reflexivity|].
  split; [run_big; vm_compute; reflexivity|].
  split; [run_big; vm_compute; reflexivity|].
  vm_compute. reflexivity.
Qed.

Lemma clips_remain_witness :
  (exists doc, fst (runWith serviceOk bigBuffer) = Ok doc) /\
  files (snd (runWith serviceOk bigBuffer)) !! inputPath "/tmp" = None /\
  forall p, p ∈ clipPaths ->
    is_Some (files (snd (runWith serviceOk bigBuffer)) !! p).
Proof.
  split; [eexists; run_big; vm_compute; reflexivity|].
  assert (MAX_FILE_SIZE < Z.of_nat (length bigBuffer)) as Hbig
    by (apply Z.leb_gt, bigBuffer_big).
  assert (splitAudioFile "/tmp" probe1500 extractOk bigBuffer emptyWorld =
          (Ok clipPaths,
           snd (splitAudioFile "/tmp" probe1500 extractOk bigBuffer emptyWorld)))
    as Hsplit by (rewrite <- split_big; apply surjective_pairing).
  destruct (clips_remain "/tmp" probe1500 extractOk serviceOk vtt bigBuffer
              "key" "whisper-1" "en" DEFAULT_SYSTEM_PROMPT emptyWorld _ _
              clipPaths _ Hbig Hsplit (run_pair serviceOk))
    as (_ & Hinput & Hclips & _).
  split; [exact Hinput|exact Hclips].
Defined.

(** C7 fails as stated: when the second request is refused the run aborts
    and the three clip files are still in the temporary directory; they are
    there as well after a run that returns a transcript. *)
Lemma clips_not_removed :
  fst (runWith serviceBusy bigBuffer) =
    Throw "Rate limit exceeded. Please try again later." /\
  (files (snd (runWith serviceBusy bigBuffer)) !!.) <$> clipPaths =
    [Some [Byte.x00]; Some [Byte.x00]; Some [Byte.x00]] /\
  (files (snd (runWith serviceOk bigBuffer)) !!.) <$> clipPaths =
    [Some [Byte.x00]; Some [Byte.x00]; Some [Byte.x00]].
Proof.
  split; [exact busy_run_result|].
  split; run_big; vm_compute; reflexivity.
Qed.

(** * Further properties *)

(** ** TimeCodec: what is written *)

Lemma string_app_nil_l (b : string) : "" +:+ b = b.
Proof. reflexivity. Qed.

Lemma digitChar_spec d :
  0 <= d <= 9 ->
  JS.isDigit (digitChar d) = true /\ JS.digitValue (digitChar d) = d.
Proof.
  intros H.
  assert (d = 0 \/ d = 1 \/ d = 2 \/ d = 3 \/ d = 4 \/ d = 5 \/ d = 6 \/
          d = 7 \/ d = 8 \/ d = 9) as Hd by lia.
  repeat (destruct Hd as [->|Hd]; [split; reflexivity|]).
  subst d. split; reflexivity.
Qed.

(** The four fields of a time below 100 hours. *)
Lemma time_fields t :
  0 <= t < 100 * 3600 * 1000 ->
  exists H M S F,
    0 <= H < 100 /\ 0 <= M < 60 /\ 0 <= S < 60 /\ 0 <= F < 1000 /\
    t = 1000 * H * 3600 + 1000 * M * 60 + (1000 * S + F).
Proof.
  intros Ht.
  exists (t / 3600000), (t mod 3600000 / 60000), (t mod 60000 / 1000), (t mod 1000).
  pose proof (Z.div_mod t 3600000 ltac:(lia)).
  pose proof (Z.mod_pos_bound t 3600000 ltac:(lia)).
  pose proof (Z.div_mod (t mod 3600000) 60000 ltac:(lia)).
  pose proof (Z.mod_pos_bound (t mod 3600000) 60000 ltac:(lia)).
  assert (t mod 60000 = (t mod 3600000) mod 60000) as E1.
  { symmetry. apply Z.mod_mod_divide. exists 60. lia. }
  assert (t mod 1000 = (t mod 60000) mod 1000) as E2.
  { symmetry. apply Z.mod_mod_divide. exists 60. lia. }
  pose proof (Z.div_mod (t mod 60000) 1000 ltac:(lia)).
  pose proof (Z.mod_pos_bound (t mod 60000) 1000 ltac:(lia)).
  pose proof (Z.mod_pos_bound t 60000 ltac:(lia)).
  pose proof (Z.div_pos t 3600000 ltac:(lia) ltac:(lia)).
  pose proof (Z.div_pos (t mod 3600000) 60000 ltac:(lia) ltac:(lia)).
  pose proof (Z.div_pos (t mod 60000) 1000 ltac:(lia) ltac:(lia)).
  assert (t / 3600000 < 100) by (apply Z.div_lt_upper_bound; lia).
  assert (t mod 3600000 / 60000 < 60) by (apply Z.div_lt_upper_bound; lia).
  assert (t mod 60000 / 1000 < 60) by (apply Z.div_lt_upper_bound; lia).
  repeat split; try lia.
Qed.

Lemma digits_of_two n :
  0 <= n < 100 -> 0 <= n / 10 <= 9 /\ 0 <= n mod 10 <= 9 /\ n = 10 * (n / 10) + n mod 10.
Proof.
  intros H. pose proof (Z.div_mod n 10 ltac:(lia)).
  pose proof (Z.mod_pos_bound n 10 ltac:(lia)).
  pose proof (Z.div_pos n 10 ltac:(lia) ltac:(lia)).
  assert (n / 10 < 10) by (apply Z.div_lt_upper_bound; lia). lia.
Qed.

Lemma digits_of_three n :
  0 <= n < 1000 ->
  0 <= n / 100 <= 9 /\ 0 <= n mod 100 < 100 /\ n = 100 * (n / 100) + n mod 100.
Proof.
  intros H. pose proof (Z.div_mod n 100 ltac:(lia)).
  pose proof (Z.mod_pos_bound n 100 ltac:(lia)).
  pose proof (Z.div_pos n 100 ltac:(lia) ltac:(lia)).
  assert (n / 100 < 10) by (apply Z.div_lt_upper_bound; lia). lia.
Qed.

(** X2: for every time from 0 up to 100 hours (excluded),
    [formatVTTTimestamp] writes twelve characters [HH:MM:SS.mmm] with minutes
    and seconds below 60: the stitched track can be read again by the cue
    pattern. *)
Theorem format_wellFormed (t : Z) :
  0 <= t < 100 * 3600 * 1000 ->
  wellFormedTimestamp (formatVTTTimestamp t) = true.
Proof.
  intros Ht. destruct (time_fields t Ht) as (H & M & S & F & HH & HM & HS & HF & ->).
  rewrite formatVTTTimestamp_fields by assumption.
  destruct (digits_of_two H HH) as (H1 & H2 & EH).
  destruct (digits_of_two M ltac:(lia)) as (M1 & M2 & EM).
  destruct (digits_of_two S ltac:(lia)) as (S1 & S2 & ES).
  destruct (digits_of_three F HF) as (F1 & F2 & EF).
  destruct (digits_of_two (F mod 100) F2) as (F3 & F4 & EF').
  unfold threeDigits, twoDigits.
  repeat rewrite ?string_app_cons, ?string_app_nil_l.
  unfold wellFormedTimestamp, timestampAt.
  rewrite !(proj1 (digitChar_spec _ H1)), !(proj1 (digitChar_spec _ H2)).
  rewrite !(proj1 (digitChar_spec _ M1)), !(proj1 (digitChar_spec _ M2)).
  rewrite !(proj1 (digitChar_spec _ S1)), !(proj1 (digitChar_spec _ S2)).
  rewrite !(proj1 (digitChar_spec _ F1)), !(proj1 (digitChar_spec _ F3)).
  rewrite !(proj1 (digitChar_spec _ F4)).
  cbn [andb Ascii.eqb Bool.eqb].
  rewrite (proj2 (digitChar_spec _ M1)), (proj2 (digitChar_spec _ S1)).
  apply andb_true_intro. split; apply Z.ltb_lt.
  - apply Z.div_lt_upper_bound; lia.
  - apply Z.div_lt_upper_bound; lia.
Qed.

Lemma format_wellFormed_witness :
  wellFormedTimestamp (formatVTTTimestamp 3723450) = true.
Proof. apply (format_wellFormed 3723450). lia. Defined.

(** ** The cue-track stitcher, clip by clip *)



(** ** The structured stitcher *)

Lemma combineJSONLoop_throw docs c off :
  (exists e, combineJSONLoop docs c off = Throw e) <->
  Exists (fun d => segments d = []) docs.
Proof.
  revert c off. induction docs as [|d ds IH]; intros c off; cbn [combineJSONLoop].
  - split; [intros [e H]; discriminate|intros H; inversion H].
  - destruct (last (segments d)) as [s|] eqn:E.
    + rewrite IH. split; [intros H; now apply Exists_cons_tl|].
      intros H. apply Exists_cons in H as [H|H]; [|exact H].
      rewrite H in E. discriminate.
    + split; [|eauto]. intros _. apply Exists_cons_hd. now apply last_None.
Qed.

(** X4: [combineJSONTranscriptions] throws exactly when one of the clips has
    no segment entry, and then with the [TypeError] of reading [.end] of
    [undefined]; otherwise it returns a transcript. *)
Theorem combineJSON_throws_iff (transcriptions : list TranscriptionResponse) :
  (combineJSONTranscriptions transcriptions = Throw typeErrorEnd <->
   Exists (fun d => segments d = []) transcriptions) /\
  ((exists c, combineJSONTranscriptions transcriptions = Ok c) <->
   Forall (fun d => segments d <> []) transcriptions).
Proof.
  assert (forall docs c off e, combineJSONLoop docs c off = Throw e -> e = typeErrorEnd)
    as Hmsg.
  { induction docs as [|d ds IH]; intros c off e; cbn [combineJSONLoop]; [discriminate|].
    destruct (last (segments d)); [apply IH|]. intros [= <-]. reflexivity. }
  pose proof (combineJSONLoop_throw transcriptions jsonInit 0) as Hiff.
  unfold combineJSONTranscriptions.
  destruct (combineJSONLoop transcriptions jsonInit 0) as [[c off]|e] eqn:E.
  - split.
    + split; [discriminate|]. intros H. apply Hiff in H as [e He]. discriminate.
    + split; [|eauto]. intros _. apply Forall_forall. intros d Hd Hnil.
      assert (Exists (fun d => segments d = []) transcriptions) as Hex
        by (apply Exists_exists; eauto).
      apply Hiff in Hex as [e He]. discriminate.
  - apply Hmsg in E as Ee. subst e. split.
    + split; [|reflexivity]. intros _. apply Hiff. eauto.
    + split; [intros [c Hc]; discriminate|].
      intros Hall. assert (Exists (fun d => segments d = []) transcriptions) as Hex
        by (apply Hiff; eauto).
      apply Exists_exists in Hex as (d & Hd & Hnil).
      rewrite Forall_forall in Hall. destruct (Hall d Hd Hnil).
Qed.

Lemma combineJSONLoop_items docs c off c' off' :
  combineJSONLoop docs c off = Ok (c', off') ->
  words c' = words c ++
    concat (zip_with (fun o d => shiftWord o <$> words d) (jsonOffsets off docs) docs) /\
  segments c' = segments c ++
    concat (zip_with (fun o d => shiftSegment o <$> segments d) (jsonOffsets off docs) docs).
Proof.
  revert c off. induction docs as [|d ds IH]; intros c off;
    cbn [combineJSONLoop jsonOffsets zip_with concat].
  - intros [= <- _]. now rewrite !app_nil_r.
  - destruct (last (segments d)) as [s|]; [|discriminate].
    intros H. apply IH in H as [H1 H2]. cbn [words segments fmap option_fmap option_map default] in *.
    rewrite H1, H2, <- !app_assoc. split; reflexivity.
Qed.

(** X5: the structured stitcher drops and reorders nothing: the stitched
    words and segment entries are those of the clips in order, the first
    clip unshifted and every later clip shifted by the local end time of the
    last segment entry of the clip just before it. *)
Theorem combineJSON_items (transcriptions : list TranscriptionResponse)
    (c : TranscriptionResponse) :
  combineJSONTranscriptions transcriptions = Ok c ->
  words c =
    concat (zip_with (fun o d => shiftWord o <$> words d)
              (jsonOffsets 0 transcriptions) transcriptions) /\
  segments c =
    concat (zip_with (fun o d => shiftSegment o <$> segments d)
              (jsonOffsets 0 transcriptions) transcriptions).
Proof.
  unfold combineJSONTranscriptions.
  destruct (combineJSONLoop transcriptions jsonInit 0) as [[c' off]|e] eqn:E; [|discriminate].
  intros [= <-]. apply combineJSONLoop_items in E. exact E.
Qed.

Lemma combineJSON_items_witness :
  exists c,
    combineJSONTranscriptions [fullClip "a"; fullClip "b"; fullClip "c"] = Ok c /\
    jsonOffsets 0 [fullClip "a"; fullClip "b"; fullClip "c"] = [0; 600000; 600000] /\
    segStart <$> segments c = [0; 600000; 600000].
Proof.
  eexists. split; [reflexivity|]. split; [reflexivity|].
  rewrite (proj2 (combineJSON_items [fullClip "a"; fullClip "b"; fullClip "c"] _ eq_refl)).
  reflexivity.
Defined.

Lemma shiftWord_0 (l : list Word) : shiftWord 0 <$> l = l.
Proof.
  induction l as [|[w s e] l IH]; cbn; [reflexivity|].
  unfold shiftWord at 1. cbn. rewrite !Z.add_0_r. now rewrite IH.
Qed.

Lemma shiftSegment_0 (l : list Segment) : shiftSegment 0 <$> l = l.
Proof.
  induction l as [|[i s e t] l IH]; cbn; [reflexivity|].
  unfold shiftSegment at 1. cbn. rewrite !Z.add_0_r. now rewrite IH.
Qed.

(** X6: stitching a single structured result that has a segment entry
    returns its words and segment entries unchanged and its text followed by
    one space. *)
Theorem combineJSON_single (data : TranscriptionResponse) :
  segments data <> [] ->
  combineJSONTranscriptions [data] =
  Ok {| text := text data +:+ " "; words := words data; segments := segments data |}.
Proof.
  intros H. unfold combineJSONTranscriptions. cbn [combineJSONLoop].
  destruct (last (segments data)) as [s|] eqn:E.
  - cbn. rewrite shiftWord_0, shiftSegment_0. reflexivity.
  - apply last_None in E. contradiction.
Qed.

Lemma combineJSON_single_witness :
  combineJSONTranscriptions [clipA] =
  Ok {| text := "first clip "; words := words clipA; segments := segments clipA |}.
Proof. apply (combineJSON_single clipA). discriminate. Defined.

(** ** The windows of the Segmenter *)

Lemma segmentWindows_seq fuel duration cur :
  duration - cur <= Z.of_nat fuel * SEGMENT_DURATION ->
  segmentWindows fuel duration cur =
  (fun k => (Z.max 0 (cur + Z.of_nat k * SEGMENT_DURATION - SEGMENT_OVERLAP),
             SEGMENT_DURATION)) <$>
  seq 0 (Z.to_nat ((duration - cur + SEGMENT_DURATION - 1) / SEGMENT_DURATION)).
Proof.
  revert cur. induction fuel as [|fuel IH]; intros cur H; cbn [segmentWindows].
  - assert ((duration - cur + SEGMENT_DURATION - 1) / SEGMENT_DURATION <= 0) as Hq
      by (apply Z.lt_succ_r, Z.div_lt_upper_bound; unfold SEGMENT_DURATION in *; lia).
    replace (Z.to_nat _) with 0%nat by lia. reflexivity.
  - destruct (cur <? duration) eqn:E.
    + apply Z.ltb_lt in E.
      replace ((duration - cur + SEGMENT_DURATION - 1) / SEGMENT_DURATION)
        with (Z.succ ((duration - (cur + SEGMENT_DURATION) + SEGMENT_DURATION - 1)
                        / SEGMENT_DURATION)).
      2:{ replace (duration - cur + SEGMENT_DURATION - 1)
            with (duration - (cur + SEGMENT_DURATION) + SEGMENT_DURATION - 1
                  + 1 * SEGMENT_DURATION) by lia.
          rewrite Z.div_add by (unfold SEGMENT_DURATION; lia). lia. }
      rewrite Z2Nat.inj_succ
        by (apply Z.div_pos; unfold SEGMENT_DURATION in *; lia).
      cbn [seq fmap list_fmap]. f_equal.
      * f_equal. lia.
      * rewrite IH by (unfold SEGMENT_DURATION in *; lia).
        rewrite <- seq_shift, <- list_fmap_compose.
        apply list_fmap_ext. intros _ k _. cbn. f_equal. lia.
    + apply Z.ltb_ge in E.
      assert ((duration - cur + SEGMENT_DURATION - 1) / SEGMENT_DURATION <= 0) as Hq
        by (apply Z.lt_succ_r, Z.div_lt_upper_bound; unfold SEGMENT_DURATION in *; lia).
      replace (Z.to_nat _) with 0%nat by lia. reflexivity.
Qed.

(** The windows of the Segmenter in closed form. *)
Lemma descriptors_seq (duration : Z) :
  descriptors duration = windowAt <$> seq 0 (clipCount duration).
Proof.
  unfold descriptors. rewrite segmentWindows_seq by apply splitFuel_enough.
  unfold clipCount, windowAt. rewrite Z.sub_0_r. reflexivity.
Qed.

(** X7: for every duration the Segmenter requests the duration divided by
    600 s, rounded up, windows (none for a duration of 0 or less); window
    [k] starts at [max(0, 600 k - 20)] s and is 600 s long. *)
Theorem descriptors_windows (duration : Z) :
  descriptors duration = windowAt <$> seq 0 (clipCount duration).
Proof.
  unfold descriptors. rewrite segmentWindows_seq by apply splitFuel_enough.
  unfold clipCount, windowAt. rewrite Z.sub_0_r. reflexivity.
Qed.

(** X8: every time from 0 up to the duration minus the overlap of 20 s lies
    in one of the requested windows: only the last 20 s of an audio can be
    left out. *)
Theorem descriptors_cover (duration t : Z) :
  0 <= t < duration - SEGMENT_OVERLAP ->
  exists d, In d (descriptors duration) /\ covers d t.
Proof.
  intros Ht. rewrite descriptors_seq.
  pose (k := (t + SEGMENT_OVERLAP) / SEGMENT_DURATION).
  assert (0 <= k) as Hk0
    by (apply Z.div_pos; unfold SEGMENT_OVERLAP, SEGMENT_DURATION in *; lia).
  pose proof (Z.div_mod (t + SEGMENT_OVERLAP) SEGMENT_DURATION ltac:(unfold SEGMENT_DURATION; lia)) as Hdm.
  pose proof (Z.mod_pos_bound (t + SEGMENT_OVERLAP) SEGMENT_DURATION ltac:(unfold SEGMENT_DURATION; lia)) as Hmb.
  fold k in Hdm.
  exists (windowAt (Z.to_nat k)). split.
  - apply in_map, in_seq. split; [lia|]. cbn [Nat.add]. unfold clipCount.
    assert (k + 1 <= (duration + SEGMENT_DURATION - 1) / SEGMENT_DURATION)
      by (apply Z.div_le_lower_bound; unfold SEGMENT_OVERLAP, SEGMENT_DURATION in *; lia).
    lia.
  - unfold covers, windowAt. cbn [fst snd]. rewrite Z2Nat.id by exact Hk0.
    unfold SEGMENT_OVERLAP, SEGMENT_DURATION in *. lia.
Qed.

Lemma descriptors_cover_witness :
  exists d, In d (descriptors 1190000) /\ covers d 1169999.
Proof. apply (descriptors_cover 1190000 1169999). unfold SEGMENT_OVERLAP. lia. Defined.

Section SplitFacts.

Context (tmpdir : string) (ffprobe : Buffer -> Probe)
        (ffmpeg : Buffer -> Z -> Z -> Result Buffer).

Lemma splitLoop_runs fuel duration segs idx cur w segs' w' :
  splitLoop tmpdir ffmpeg fuel duration segs idx cur w = (Ok segs', w') ->
  let n := length (segmentWindows fuel duration cur) in
  segs' = segs ++ ((fun k => segmentPath tmpdir (idx + Z.of_nat k)) <$> seq 0 n) /\
  extractions w' =
    extractions w ++
    ((fun k => {| source := inputPath tmpdir;
                  startTime := Z.max 0 (cur + Z.of_nat k * SEGMENT_DURATION
                                        - SEGMENT_OVERLAP);
                  duration := SEGMENT_DURATION;
                  output := segmentPath tmpdir (idx + Z.of_nat k) |}) <$> seq 0 n).
Proof.
  revert segs idx cur w. induction fuel as [|fuel IH]; intros segs idx cur w;
    cbn [splitLoop segmentWindows].
  - intros [= <- <-]. cbn. now rewrite !app_nil_r.
  - destruct (cur <? duration).
    + unfold bind.
      destruct (runFfmpeg _ _ _ _ _ _) as [[[]|e] w1] eqn:E; [|discriminate].
      apply runFfmpeg_spec in E as (_ & Hx & _).
      intros H. apply IH in H as (H1 & H2). cbv zeta in *.
      cbn [length seq fmap list_fmap].
      rewrite Hx in H2. rewrite <- app_assoc in H1, H2. cbn [app] in H1, H2.
      rewrite <- seq_shift, <- !list_fmap_compose.
      split.
      * rewrite H1. f_equal. f_equal.
        -- unfold segmentPath. cbn [Z.of_nat]. now rewrite Z.add_0_r.
        -- apply list_fmap_ext. intros _ k _. cbn. f_equal. lia.
      * rewrite H2. f_equal. f_equal.
        -- unfold segmentPath. cbn [Z.of_nat]. rewrite Z.add_0_r.
           f_equal. do 2 f_equal. lia.
        -- apply list_fmap_ext. intros _ k _. cbn.
           f_equal; try reflexivity; f_equal; lia.
    + intros [= <- <-]. cbn. now rewrite !app_nil_r.
Qed.

(** X9: a successful split returns one path per window, clip [k] at the
    output pattern with [k] in place of [%d]; the media tool was run once
    per clip, in order, each time on the temporary copy of the input, from
    the start of window [k] for 600 s and into the path of clip [k]. *)
Theorem splitAudioFile_runs (audioBuffer : Buffer) (w w1 : World) (segs : list string) :
  splitAudioFile tmpdir ffprobe ffmpeg audioBuffer w = (Ok segs, w1) ->
  exists formatDuration,
    ffprobe audioBuffer = ProbeOk formatDuration /\
    let n := clipCount (default 0 formatDuration) in
    segs = (fun k => segmentPath tmpdir (Z.of_nat k)) <$> seq 0 n /\
    extractions w1 = extractions w ++ (extractionAt tmpdir <$> seq 0 n).
Proof.
  unfold splitAudioFile, bind, writeFile, throw, ret.
  destruct (ffprobe audioBuffer) as [err|fd].
  - destruct (rm _ _ _) as [[[]|e] w2]; discriminate.
  - destruct (splitLoop _ _ _ _ _ _ _ _) as [[segs'|e] w2] eqn:E; [|discriminate].
    apply splitLoop_runs in E as (Hs & Hx). cbv zeta in *.
    destruct (rm _ _ _) as [[[]|e] w3] eqn:E2; [|discriminate].
    apply rm_spec in E2 as (_ & Hx3 & _).
    intros [= <- <-]. exists fd. split; [reflexivity|].
    cbn [extractions app] in *.
    fold (descriptors (default 0 fd)) in Hs, Hx.
    rewrite descriptors_seq, length_fmap, length_seq in Hs, Hx.
    split.
    + rewrite Hs. reflexivity.
    + rewrite Hx3, Hx. reflexivity.
Qed.

End SplitFacts.

Lemma splitAudioFile_runs_witness :
  exists formatDuration,
    probe1500 bigBuffer = ProbeOk formatDuration /\
    let n := clipCount (default 0 formatDuration) in
    clipPaths = (fun k => segmentPath "/tmp" (Z.of_nat k)) <$> seq 0 n /\
    extractions (snd (splitAudioFile "/tmp" probe1500 extractOk bigBuffer emptyWorld)) =
      extractions emptyWorld ++ (extractionAt "/tmp" <$> seq 0 n).
Proof.
  apply (splitAudioFile_runs "/tmp" probe1500 extractOk bigBuffer emptyWorld
           (snd (splitAudioFile "/tmp" probe1500 extractOk bigBuffer emptyWorld))
           clipPaths).
  rewrite <- split_big. apply surjective_pairing.
Defined.

(** ** Runs on a buffer above the size limit, in general *)

Section RunFacts.

Context (tmpdir : string) (ffprobe : Buffer -> Probe)
        (ffmpeg : Buffer -> Z -> Z -> Result Buffer)
        (whisper : forall f : Format, nat -> Request -> Reply f).

(** X10: when the duration probe fails on a buffer above the size limit, the
    run throws the error of the probe; no clip is extracted, no request is
    sent, and the temporary copy of the input is removed again. *)
Theorem probe_error_aborts (f : Format) (audioBuffer : Buffer)
    (apiKey model language prompt : string) (w : World) (err : string) :
  MAX_FILE_SIZE < Z.of_nat (length audioBuffer) ->
  ffprobe audioBuffer = ProbeError err ->
  transcribeAudio tmpdir ffprobe ffmpeg whisper f audioBuffer apiKey model language
    prompt w =
  (Throw err,
   {| files := delete (inputPath tmpdir) (files w);
      extractions := extractions w; requests := requests w |}).
Proof.
  intros Hbig Hprobe. unfold transcribeAudio.
  replace (Z.of_nat (length audioBuffer) <=? MAX_FILE_SIZE) with false
    by (symmetry; apply Z.leb_gt; exact Hbig).
  unfold bind, splitAudioFile, bind, writeFile, rm, throw. rewrite Hprobe.
  cbn [files extractions requests]. rewrite lookup_insert_eq.
  rewrite delete_insert_eq. reflexivity.
Qed.

(** X11: when the probe reports no duration, or a duration of 0 or less, on
    a buffer above the size limit, the run returns the empty transcript (the
    empty string, or the object with an empty text and no words and segment
    entries) without an error: no clip is extracted and no request is
    sent. *)
Theorem unknown_duration_empty (f : Format) (audioBuffer : Buffer)
    (apiKey model language prompt : string) (w : World)
    (formatDuration : option Z) :
  MAX_FILE_SIZE < Z.of_nat (length audioBuffer) ->
  ffprobe audioBuffer = ProbeOk formatDuration ->
  default 0 formatDuration <= 0 ->
  transcribeAudio tmpdir ffprobe ffmpeg whisper f audioBuffer apiKey model language
    prompt w =
  (Ok (emptyTranscript f),
   {| files := delete (inputPath tmpdir) (files w);
      extractions := extractions w; requests := requests w |}).
Proof.
  intros Hbig Hprobe Hd. unfold transcribeAudio.
  replace (Z.of_nat (length audioBuffer) <=? MAX_FILE_SIZE) with false
    by (symmetry; apply Z.leb_gt; exact Hbig).
  unfold bind at 1 2. unfold splitAudioFile, bind, writeFile, rm, ret. rewrite Hprobe.
  unfold splitFuel. cbn [splitLoop].
  replace (0 <? default 0 formatDuration) with false
    by (symmetry; apply Z.ltb_ge; exact Hd).
  unfold ret. cbn [files extractions requests]. rewrite lookup_insert_eq.
  rewrite delete_insert_eq. cbn [transcribeLoop]. unfold ret.
  destruct f; reflexivity.
Qed.

Lemma transcribeLoop_requests f apiKey model language prompt segs i prev acc w ts w' :
  transcribeLoop whisper f apiKey model language prompt segs i prev acc w = (Ok ts, w') ->
  exists new,
    ts = acc ++ new /\ length new = length segs /\
    length (requests w') = (length (requests w) + length segs)%nat /\
    forall k seg, segs !! k = Some seg ->
      exists data t,
        files w !! seg = Some data /\ new !! k = Some t /\
        requests w' !! (length (requests w) + k)%nat =
          Some (directRequest f data apiKey model language
                  (segmentPrompt prompt (i + k) (previousOf prev new k))) /\
        whisper f (length (requests w) + k)%nat
          (directRequest f data apiKey model language
             (segmentPrompt prompt (i + k) (previousOf prev new k))) = Success t.
Proof.
  revert i prev acc w. induction segs as [|seg rest IH]; intros i prev acc w;
    cbn [transcribeLoop].
  - intros [= <- <-]. exists []. rewrite app_nil_r. repeat split; try (cbn; lia).
    intros k seg Hk. discriminate.
  - unfold bind, readFile. destruct (files w !! seg) as [data|] eqn:Ef; [|discriminate].
    change (match prev with
            | Some previous =>
                if (0 <? i)%nat && truthy previous
                then prompt +:+ " Previous context: " +:+
                     JS.join " " (sliceLast 50 (JS.split " " (previousTextOf previous)))
                else prompt
            | None => prompt
            end) with (segmentPrompt prompt i prev).
    rewrite transcribeAudioSegment_spec.
    destruct (whisper f (length (requests w))
                (directRequest f data apiKey model language (segmentPrompt prompt i prev)))
      as [t|st msg dm] eqn:Ew; [|discriminate].
    intros H. pose proof H as H'.
    apply transcribeLoop_spec in H' as (_ & ([more Hmore] & _) & _).
    apply IH in H as (new & Hts & Hlen & Hreq & Hall).
    cbn [files requests] in *. rewrite length_app in Hreq, Hall. cbn [length] in Hreq, Hall.
    exists (t :: new). split; [rewrite Hts, <- app_assoc; reflexivity|].
    split; [cbn; lia|]. split; [cbn [length]; lia|].
    intros [|k] seg' Hk.
    + injection Hk as <-. exists data, t. split; [exact Ef|]. split; [reflexivity|].
      rewrite !Nat.add_0_r. cbn [previousOf]. split; [|exact Ew].
      rewrite Hmore, <- app_assoc. rewrite lookup_app_r by lia.
      rewrite Nat.sub_diag. reflexivity.
    + cbn [lookup list_lookup] in Hk. destruct (Hall k seg' Hk) as (d & t' & H1 & H2 & H3 & H4).
      exists d, t'. split; [exact H1|]. split; [exact H2|].
      replace (length (requests w) + S k)%nat with (length (requests w) + 1 + k)%nat by lia.
      replace (i + S k)%nat with (S i + k)%nat by lia.
      assert (previousOf (Some t) new k = previousOf prev (t :: new) (S k)) as <-
        by (destruct k; reflexivity).
      split; assumption.
Qed.

(** X12: a run on a buffer above the size limit that returns a transcript
    has sent exactly one request per clip, in clip order.  The request of
    clip [k] carries the bytes of the clip file [k] and the prompt of turn
    [k], built from the reply to clip [k - 1]; the transcript returned is
    the stitch of the replies to all these requests, in order. *)
Theorem run_complete (f : Format) (audioBuffer : Buffer)
    (apiKey model language prompt : string) (w w1 w' : World)
    (segs : list string) (doc : Doc f) :
  MAX_FILE_SIZE < Z.of_nat (length audioBuffer) ->
  splitAudioFile tmpdir ffprobe ffmpeg audioBuffer w = (Ok segs, w1) ->
  transcribeAudio tmpdir ffprobe ffmpeg whisper f audioBuffer apiKey model language
    prompt w = (Ok doc, w') ->
  exists replies,
    combineTranscriptions replies = Ok doc /\
    length replies = length segs /\
    length (requests w') = (length (requests w) + length segs)%nat /\
    forall k seg, segs !! k = Some seg ->
      exists data t,
        files w1 !! seg = Some data /\ replies !! k = Some t /\
        requests w' !! (length (requests w) + k)%nat =
          Some (directRequest f data apiKey model language
                  (segmentPrompt prompt k (previousOf None replies k))) /\
        whisper f (length (requests w) + k)%nat
          (directRequest f data apiKey model language
             (segmentPrompt prompt k (previousOf None replies k))) = Success t.
Proof.
  intros Hbig Hsplit. unfold transcribeAudio.
  replace (Z.of_nat (length audioBuffer) <=? MAX_FILE_SIZE) with false
    by (symmetry; apply Z.leb_gt; exact Hbig).
  unfold bind. rewrite Hsplit. apply splitAudioFile_requests in Hsplit as Hr.
  destruct (transcribeLoop _ _ _ _ _ _ _ _ _ _ _) as [[ts|e] w2] eqn:E; [|discriminate].
  apply transcribeLoop_requests in E as (new & Hts & Hlen & Hreq & Hall).
  cbn [app] in Hts. subst ts. rewrite Hr in *.
  destruct (combineTranscriptions new) as [result|e] eqn:Ec; [|discriminate].
  intros [= <- <-]. exists new. repeat split; assumption.
Qed.

End RunFacts.

Lemma probe_error_aborts_witness :
  transcribeAudio "/tmp" probeFails extractOk serviceOk vtt bigBuffer
    "key" "whisper-1" "en" DEFAULT_SYSTEM_PROMPT emptyWorld =
  (Throw "ffprobe: invalid data",
   {| files := delete (inputPath "/tmp") ∅; extractions := []; requests := [] |}).
Proof.
  apply (probe_error_aborts "/tmp" probeFails extractOk serviceOk vtt bigBuffer
           "key" "whisper-1" "en" DEFAULT_SYSTEM_PROMPT emptyWorld).
  - apply Z.leb_gt, bigBuffer_big.
  - reflexivity.
Defined.

Lemma unknown_duration_empty_witness :
  transcribeAudio "/tmp" probeNoDuration extractOk serviceOk vtt bigBuffer
    "key" "whisper-1" "en" DEFAULT_SYSTEM_PROMPT emptyWorld =
  (Ok ("" : Doc vtt),
   {| files := delete (inputPath "/tmp") ∅; extractions := []; requests := [] |}).
Proof.
  apply (unknown_duration_empty "/tmp" probeNoDuration extractOk serviceOk vtt bigBuffer
           "key" "whisper-1" "en" DEFAULT_SYSTEM_PROMPT emptyWorld None).
  - apply Z.leb_gt, bigBuffer_big.
  - reflexivity.
  - cbn. lia.
Defined.

Lemma run_complete_witness :
  exists replies : list (Doc vtt),
    combineTranscriptions replies = fst (runWith serviceOk bigBuffer) /\
    length replies = 3%nat /\
    length (requests (snd (runWith serviceOk bigBuffer))) = 3%nat.
Proof.
  assert (exists doc, fst (runWith serviceOk bigBuffer) = Ok doc) as [doc Hdoc]
    by (eexists; run_big; vm_compute; reflexivity).
  assert (splitAudioFile "/tmp" probe1500 extractOk bigBuffer emptyWorld =
          (Ok clipPaths,
           snd (splitAudioFile "/tmp" probe1500 extractOk bigBuffer emptyWorld)))
    as Hsplit by (rewrite <- split_big; apply surjective_pairing).
  assert (transcribeAudio "/tmp" probe1500 extractOk serviceOk vtt bigBuffer
            "key" "whisper-1" "en" DEFAULT_SYSTEM_PROMPT emptyWorld =
          (Ok doc, snd (runWith serviceOk bigBuffer))) as Hrun
    by (rewrite <- Hdoc; apply run_pair).
  destruct (run_complete "/tmp" probe1500 extractOk serviceOk vtt bigBuffer
              "key" "whisper-1" "en" DEFAULT_SYSTEM_PROMPT emptyWorld _ _
              clipPaths doc (proj1 (Z.leb_gt _ _) bigBuffer_big) Hsplit Hrun)
    as (replies & Hc & Hl & Hr & _).
  exists replies. rewrite Hdoc.
  split; [exact Hc|]. split; [exact Hl|exact Hr].
Defined.

(** ** The context passed from one request to the next *)

Lemma split_not_nil sep s : JS.split sep s <> [].
Proof.
  destruct s as [|c s]; cbn; [discriminate|].
  destruct (Ascii.eqb c sep); [discriminate|].
  destruct (JS.split sep s); discriminate.
Qed.

Lemma join_cons sep p ps :
  ps <> [] -> JS.join sep (p :: ps) = p +:+ sep +:+ JS.join sep ps.
Proof. destruct ps; [contradiction|reflexivity]. Qed.

Lemma join_split sep s : JS.join (String sep "") (JS.split sep s) = s.
Proof.
  induction s as [|c s IH]; [reflexivity|]. cbn [JS.split].
  destruct (Ascii.eqb c sep) eqn:E.
  - apply Ascii.eqb_eq in E. subst c.
    rewrite join_cons by apply split_not_nil. rewrite IH. reflexivity.
  - destruct (JS.split sep s) as [|w ws] eqn:Es; [destruct (split_not_nil _ _ Es)|].
    destruct ws as [|w' ws].
    + cbn in *. now rewrite IH.
    + rewrite join_cons in * by discriminate. rewrite <- IH. reflexivity.
Qed.

Lemma join_drop_suffix sep s n :
  exists pre, s = pre +:+ JS.join (String sep "") (drop n (JS.split sep s)).
Proof.
  revert n. induction s as [|c s IH]; intros n.
  - exists "". destruct n as [|[|n]]; reflexivity.
  - destruct n as [|n]; [exists ""; rewrite drop_0, join_split; reflexivity|].
    cbn [JS.split]. destruct (Ascii.eqb c sep).
    + cbn [drop]. destruct (IH n) as [pre Hpre]. exists (String c pre).
      rewrite string_app_cons, <- Hpre. reflexivity.
    + destruct (JS.split sep s) as [|w ws] eqn:Es; [destruct (split_not_nil _ _ Es)|].
      cbn [drop]. destruct (IH (S n)) as [pre Hpre]. cbn [drop] in Hpre.
      exists (String c pre). rewrite string_app_cons, <- Hpre. reflexivity.
Qed.

(** X13: the context appended to the prompt is always an end piece of the
    text of the previous transcription: nothing is added to it or changed
    in it. *)
Theorem contextText_suffix (previousText : string) :
  exists pre, previousText = pre +:+ contextText previousText.
Proof. unfold contextText, sliceLast. apply join_drop_suffix. Qed.

(** X14: when the previous text has at most 50 pieces between spaces, the
    context is the whole of it. *)
Theorem contextText_whole (previousText : string) :
  (length (JS.split " " previousText) <= 50)%nat ->
  contextText previousText = previousText.
Proof.
  intros H. unfold contextText, sliceLast.
  replace (length (JS.split " " previousText) - 50)%nat with 0%nat by lia.
  rewrite drop_0. apply join_split.
Qed.

Lemma contextText_whole_witness : contextText "world again" = "world again".
Proof. apply (contextText_whole "world again"). cbn. lia. Defined.

Lemma split_pieces sep s : Forall (fun p => hasChar sep p = false) (JS.split sep s).
Proof.
  induction s as [|c s IH]; cbn [JS.split]; [repeat constructor|].
  destruct (Ascii.eqb c sep) eqn:E; [constructor; [reflexivity|exact IH]|].
  destruct (JS.split sep s) as [|w ws]; [repeat constructor; cbn; now rewrite E|].
  inversion IH as [|? ? Hw Hws]; subst. constructor; [|exact Hws].
  cbn. now rewrite E, Hw.
Qed.

Lemma split_app_sep sep p rest :
  hasChar sep p = false ->
  JS.split sep (p +:+ String sep rest) = p :: JS.split sep rest.
Proof.
  induction p as [|c p IH]; intros H.
  - rewrite string_app_nil_l. cbn [JS.split]. now rewrite Ascii.eqb_refl.
  - cbn [hasChar] in H. apply orb_false_elim in H as [Hc Hp].
    rewrite string_app_cons. cbn [JS.split]. rewrite Hc, IH by exact Hp. reflexivity.
Qed.

Lemma split_no_sep sep p : hasChar sep p = false -> JS.split sep p = [p].
Proof.
  induction p as [|c p IH]; intros H; [reflexivity|].
  cbn [hasChar] in H. apply orb_false_elim in H as [Hc Hp].
  cbn [JS.split]. rewrite Hc, IH by exact Hp. reflexivity.
Qed.

Lemma split_join sep l :
  l <> [] -> Forall (fun p => hasChar sep p = false) l ->
  JS.split sep (JS.join (String sep "") l) = l.
Proof.
  induction l as [|p l IH]; intros Hne Hall; [contradiction|].
  inversion Hall as [|? ? Hp Hl]; subst.
  destruct l as [|q l]; [cbn; now apply split_no_sep|].
  rewrite join_cons by discriminate.
  change (p +:+ String sep "" +:+ JS.join (String sep "") (q :: l))
    with (p +:+ String sep (JS.join (String sep "") (q :: l))).
  rewrite split_app_sep by exact Hp. f_equal. apply IH; [discriminate|exact Hl].
Qed.

(** X15: the context never has more than 50 pieces between spaces, however
    long the previous text is. *)
Theorem contextText_at_most_50 (previousText : string) :
  (length (JS.split " " (contextText previousText)) <= 50)%nat.
Proof.
  unfold contextText, sliceLast.
  pose proof (split_not_nil " " previousText) as Hne.
  pose proof (split_pieces " " previousText) as Hall.
  set (l := JS.split " " previousText) in *.
  rewrite split_join.
  - rewrite length_drop. lia.
  - intros E. apply (f_equal length) in E. rewrite length_drop in E. cbn in E.
    destruct l; [contradiction|cbn in E; lia].
  - apply Forall_drop, Hall.
Qed.

(** ** The batch *)

Section BatchFacts.

Context (T : Type) (truthyResult : T -> bool) (encode : T -> Buffer)
        (outputPathOf : string -> string) (dirname : string -> string)
        (ensureDirectoryExists : string -> Result unit)
        (processor : Buffer -> string -> string -> M T)
        (outputWriter : option (T -> string -> M unit))
        (processExisting skipContent : bool).

Lemma processFile_ok p acc w :
  exists acc' w',
    processFile T truthyResult encode outputPathOf dirname ensureDirectoryExists
      processor outputWriter processExisting skipContent p acc w = (Ok acc', w') /\
    outcomeInput <$> snd acc' = (outcomeInput <$> snd acc) ++ [p] /\
    (length (fst acc') + length (List.filter isProcessed (snd acc)) =
     length (fst acc) + length (List.filter isProcessed (snd acc')))%nat.
Proof.
  unfold processFile.
  destruct (negb processExisting && _).
  - eexists _, _. split; [reflexivity|]. cbn [fst snd].
    rewrite fmap_app, List.filter_app, length_app. cbn. split; [reflexivity|lia].
  - destruct (processContent _ _ _ _ _ _ _ _ _ _ _) as [[r|e] w1];
      eexists _, _; (split; [reflexivity|]); cbn [fst snd];
      rewrite fmap_app, List.filter_app, !length_app; cbn; (split; [reflexivity|lia]).
Qed.

Lemma processLoop_ok ps acc w :
  exists acc' w',
    processLoop T truthyResult encode outputPathOf dirname ensureDirectoryExists
      processor outputWriter processExisting skipContent ps acc w = (Ok acc', w') /\
    outcomeInput <$> snd acc' = (outcomeInput <$> snd acc) ++ ps /\
    (length (fst acc') + length (List.filter isProcessed (snd acc)) =
     length (fst acc) + length (List.filter isProcessed (snd acc')))%nat.
Proof.
  revert acc w. induction ps as [|p ps IH]; intros acc w; cbn [processLoop].
  - eexists _, _. split; [reflexivity|]. rewrite app_nil_r. split; [reflexivity|lia].
  - unfold bind. destruct (processFile_ok p acc w) as (acc1 & w1 & E & H1 & H2).
    rewrite E. destruct (IH acc1 w1) as (acc' & w' & E' & H3 & H4).
    exists acc', w'. split; [exact E'|]. split; [|lia].
    rewrite H3, H1, <- app_assoc. reflexivity.
Qed.

(** X16: [processFiles] lets no failure of a single file out.  Once the
    output directory is there and the search has found the files, it
    returns, whatever reading, processing or writing a file does.  It prints
    exactly one line per file found (skipped, processed or failed), in the
    order the files were found, and it returns one result per file
    processed: a skipped or failed file leaves no entry in the results. *)
Theorem processFiles_contains_failures (outputDir : string) (found : list string)
    (w : World) :
  ensureDirectoryExists outputDir = Ok tt ->
  exists results report w',
    processFiles T truthyResult encode outputPathOf dirname ensureDirectoryExists
      processor outputWriter processExisting skipContent outputDir (Ok found) w =
    (Ok (results, report), w') /\
    outcomeInput <$> report = found /\
    length results = length (List.filter isProcessed report).
Proof.
  intros Hdir. unfold processFiles, bind, liftResult. rewrite Hdir.
  destruct (processLoop_ok found ([], []) w) as ([results report] & w' & E & H1 & H2).
  exists results, report, w'. split; [exact E|]. cbn in *. split; [exact H1|lia].
Qed.


End BatchFacts.

Lemma processFiles_contains_failures_witness :
  exists results report w',
    processFiles (Doc vtt) truthy (@encodeDoc stringifyText vtt)
      (outputFlat "audio" "transcripts" ".vtt") dirnameNone mkdirOk
      (batchProcessor serviceDown) None false false "transcripts"
      (Ok ["audio/a.mp3"; "audio/b.mp3"]) twoInputs =
    (Ok (results, report), w') /\
    outcomeInput <$> report = ["audio/a.mp3"; "audio/b.mp3"] /\
    length results = length (List.filter isProcessed report).
Proof.
  apply (processFiles_contains_failures (Doc vtt) truthy (@encodeDoc stringifyText vtt)
           (outputFlat "audio" "transcripts" ".vtt") dirnameNone mkdirOk
           (batchProcessor serviceDown) None false false "transcripts"
           ["audio/a.mp3"; "audio/b.mp3"] twoInputs).
  reflexivity.
Defined.


Lemma processLoop_skips (T : Type) (truthyResult : T -> bool) (encode : T -> Buffer)
    (outputPathOf dirname : string -> string)
    (ensureDirectoryExists : string -> Result unit)
    (processor : Buffer -> string -> string -> M T)
    (outputWriter : option (T -> string -> M unit)) (skipContent : bool)
    (ps : list string) (acc : list T * list Outcome) (w : World) :
  (forall p, p ∈ ps -> is_Some (files w !! outputPathOf p)) ->
  processLoop T truthyResult encode outputPathOf dirname ensureDirectoryExists
    processor outputWriter false skipContent ps acc w =
  (Ok (fst acc, snd acc ++ ((fun p => Skipped p (outputPathOf p)) <$> ps)), w).
Proof.
  revert acc. induction ps as [|p ps IH]; intros acc Hall; cbn [processLoop fmap list_fmap].
  - rewrite app_nil_r. destruct acc; reflexivity.
  - unfold bind, processFile. cbn [negb andb].
    rewrite bool_decide_eq_true_2 by (apply Hall; left).
    rewrite IH by (intros q Hq; apply Hall; right; exact Hq).
    cbn [fst snd]. rewrite <- app_assoc. reflexivity.
Qed.

(** ** The command line *)

Section MainFacts.

Context (tmpdir : string) (ffprobe : Buffer -> Probe)
        (ffmpeg : Buffer -> Z -> Z -> Result Buffer)
        (whisper : forall f : Format, nat -> Request -> Reply f)
        (findMatchingFiles : string -> Result (list string))
        (outputPathFor : string -> string -> string -> string -> string)
        (dirname : string -> string)
        (ensureDirectoryExists : string -> Result unit)
        (stringify : TranscriptionResponse -> string).

(** X18: with a format that is neither [vtt] nor [json], or without a
    key (unset or empty), [main] ends with the failure exit before it
    touches anything: no directory is made, no file is read or written and
    no request is sent. *)
Theorem main_refuses (args : list string) (OPENAI_API_KEY : option string) (w : World) :
  formatOf (argument args 4 "vtt") = None \/
  OPENAI_API_KEY = None \/ OPENAI_API_KEY = Some "" ->
  main tmpdir ffprobe ffmpeg whisper findMatchingFiles outputPathFor dirname
    ensureDirectoryExists stringify args OPENAI_API_KEY w =
  (Ok ExitFailure, w).
Proof.
  intros H. unfold main.
  destruct (formatOf (argument args 4 "vtt")) as [f|]; [|reflexivity].
  destruct H as [H | [-> | ->]]; [discriminate | reflexivity | reflexivity].
Qed.


(** X20: a second run over a directory whose transcripts are all there
    does nothing: every file found is skipped, no file is read or written,
    no request is sent, and [main] reports success. *)
Theorem main_skips_existing (args : list string) (apiKey : string) (f : Format)
    (found : list string) (w : World) :
  formatOf (argument args 4 "vtt") = Some f ->
  apiKey <> "" ->
  ensureDirectoryExists (argument args 1 DEFAULT_OUTPUT_DIR) = Ok tt ->
  findMatchingFiles (argument args 0 DEFAULT_INPUT_DIR) = Ok found ->
  (forall p, p ∈ found ->
     is_Some (files w !! outputPathFor (argument args 0 DEFAULT_INPUT_DIR)
                           (argument args 1 DEFAULT_OUTPUT_DIR)
                           (outputExtension f) p)) ->
  main tmpdir ffprobe ffmpeg whisper findMatchingFiles outputPathFor dirname
    ensureDirectoryExists stringify args (Some apiKey) w =
  (Ok Completed, w).
Proof.
  intros Hf Hk Hd Hs Hall. unfold main. rewrite Hf.
  destruct (String.eqb apiKey "") eqn:Ek.
  { apply String.eqb_eq in Ek. contradiction. }
  unfold processFiles, bind, liftResult. rewrite Hd, Hs.
  rewrite processLoop_skips by exact Hall. reflexivity.
Qed.

End MainFacts.

Lemma main_refuses_witness :
  main "/tmp/t" probe1500 extractOk serviceOk findTwo outputFlat dirnameNone
    mkdirOk stringifyText ["audio"; "transcripts"; "whisper-1"; "en"; "srt"]
    (Some "sk-test") twoInputs =
  (Ok ExitFailure, twoInputs).
Proof.
  apply main_refuses. left. reflexivity.
Defined.


Lemma main_skips_existing_witness :
  main "/tmp/t" probe1500 extractOk serviceOk findTwo outputFlat dirnameNone
    mkdirOk stringifyText [] (Some "sk-test") twoDone =
  (Ok Completed, twoDone).
Proof.
  apply (main_skips_existing "/tmp/t" probe1500 extractOk serviceOk findTwo
           outputFlat dirnameNone mkdirOk stringifyText [] "sk-test" vtt
           ["audio/a.mp3"; "audio/b.mp3"] twoDone).
  - reflexivity.
  - discriminate.
  - reflexivity.
  - reflexivity.
  - intros p Hp. apply elem_of_cons in Hp as [-> | Hp].
    + vm_compute. eexists; reflexivity.
    + apply elem_of_cons in Hp as [-> | Hp].
      * vm_compute. eexists; reflexivity.
      * apply elem_of_nil in Hp. destruct Hp.
Defined.

(** ** The order of the files *)

Lemma consistent_strict {A} (cmp : A -> A -> Z) x y z :
  consistent cmp -> cmp x y <= 0 -> cmp y z <= 0 ->
  (cmp x y < 0 \/ cmp y z < 0) -> cmp x z < 0.
Proof.
  intros [Ha Ht] Hxy Hyz Hs.
  destruct (Z_lt_le_dec (cmp x z) 0) as [|Hge]; [assumption|exfalso].
  assert (cmp z x <= 0) as Hzx by (rewrite (Ha x z); lia).
  destruct Hs as [Hs|Hs].
  - pose proof (Ht y z x Hyz Hzx) as H. rewrite (Ha x y) in H. lia.
  - pose proof (Ht z x y Hzx Hxy) as H. rewrite (Ha y z) in H. lia.
Qed.

Lemma consistent_minus : consistent (fun x y : Z => x - y).
Proof. split; intros; lia. Qed.

Lemma consistent_pullback {A B} (f : A -> B) (cmp : B -> B -> Z) :
  consistent cmp -> consistent (fun x y => cmp (f x) (f y)).
Proof. intros [Ha Ht]. split; intros; eauto. Qed.

Lemma consistent_then {A} (c1 c2 : A -> A -> Z) :
  consistent c1 -> consistent c2 -> consistent (thenCompare c1 c2).
Proof.
  intros H1 H2. pose proof H1 as [Ha1 Ht1]. pose proof H2 as [Ha2 Ht2].
  split; unfold thenCompare.
  - intros x y. rewrite (Ha1 x y).
    destruct (Z.eqb_spec (c1 x y) 0) as [E|E].
    + rewrite E. cbn. apply Ha2.
    + destruct (Z.eqb_spec (- c1 x y) 0); [lia|reflexivity].
  - intros x y z.
    destruct (Z.eqb_spec (c1 x y) 0) as [Exy|Exy];
      destruct (Z.eqb_spec (c1 y z) 0) as [Eyz|Eyz]; intros Hxy Hyz.
    + assert (c1 x z = 0) as E.
      { pose proof (Ht1 x y z ltac:(lia) ltac:(lia)).
        pose proof (Ht1 z y x ltac:(rewrite (Ha1 y z); lia) ltac:(rewrite (Ha1 x y); lia)) as H'.
        rewrite (Ha1 x z) in H'. lia. }
      rewrite E. cbn. eauto.
    + pose proof (consistent_strict c1 x y z H1 ltac:(lia) Hyz ltac:(lia)).
      destruct (Z.eqb_spec (c1 x z) 0); lia.
    + pose proof (consistent_strict c1 x y z H1 Hxy ltac:(lia) ltac:(lia)).
      destruct (Z.eqb_spec (c1 x z) 0); lia.
    + pose proof (consistent_strict c1 x y z H1 Hxy Hyz ltac:(lia)).
      destruct (Z.eqb_spec (c1 x z) 0); lia.
Qed.

Lemma consistent_lex {A} (cmp : A -> A -> Z) :
  consistent cmp -> consistent (lexCompare cmp).
Proof.
  intros H. pose proof H as [Ha Ht]. split.
  - induction x as [|x xs IH]; intros [|y ys]; cbn [lexCompare length]; try lia.
    rewrite (Ha x y). destruct (Z.eqb_spec (cmp x y) 0) as [E|E].
    + rewrite E. cbn. apply IH.
    + destruct (Z.eqb_spec (- cmp x y) 0); [lia|reflexivity].
  - induction x as [|x xs IH]; intros [|y ys] [|z zs]; cbn [lexCompare length]; try lia.
    destruct (Z.eqb_spec (cmp x y) 0) as [Exy|Exy];
      destruct (Z.eqb_spec (cmp y z) 0) as [Eyz|Eyz]; intros Hxy Hyz.
    + assert (cmp x z = 0) as E.
      { pose proof (Ht x y z ltac:(lia) ltac:(lia)).
        pose proof (Ht z y x ltac:(rewrite (Ha y z); lia) ltac:(rewrite (Ha x y); lia)) as H'.
        rewrite (Ha x z) in H'. lia. }
      rewrite E. cbn. eauto.
    + pose proof (consistent_strict cmp x y z H ltac:(lia) Hyz ltac:(lia)).
      destruct (Z.eqb_spec (cmp x z) 0); lia.
    + pose proof (consistent_strict cmp x y z H Hxy ltac:(lia) ltac:(lia)).
      destruct (Z.eqb_spec (cmp x z) 0); lia.
    + pose proof (consistent_strict cmp x y z H Hxy Hyz ltac:(lia)).
      destruct (Z.eqb_spec (cmp x z) 0); lia.
Qed.

Lemma compareNumbers_lex aNumbers bNumbers :
  match compareNumbers aNumbers bNumbers with
  | Some d => d <> 0 /\ lexCompare (fun x y => x - y) (parseInt <$> aNumbers)
                          (parseInt <$> bNumbers) = d
  | None => lexCompare (fun x y => x - y) (parseInt <$> aNumbers) (parseInt <$> bNumbers) =
            Z.of_nat (length aNumbers) - Z.of_nat (length bNumbers)
  end.
Proof.
  revert bNumbers. induction aNumbers as [|x xs IH]; intros [|y ys];
    cbn [compareNumbers fmap list_fmap lexCompare length]; try reflexivity.
  - rewrite length_fmap. reflexivity.
  - rewrite length_fmap. reflexivity.
  - destruct (Z.eqb_spec (parseInt x) (parseInt y)) as [E|E]; cbn [negb].
    + destruct (Z.eqb_spec (parseInt x - parseInt y) 0); [|lia].
      specialize (IH ys). destruct (compareNumbers xs ys); [exact IH|].
      rewrite IH. lia.
    + destruct (Z.eqb_spec (parseInt x - parseInt y) 0); [lia|].
      split; [lia|reflexivity].
Qed.

Lemma compareSegment_then localeCompare aSegment bSegment :
  match compareSegment localeCompare aSegment bSegment with
  | Some d =>
      d <> 0 /\
      thenCompare (fun x y => lexCompare (fun x y => x - y) (numbersOf x) (numbersOf y))
        localeCompare aSegment bSegment = d
  | None =>
      thenCompare (fun x y => lexCompare (fun x y => x - y) (numbersOf x) (numbersOf y))
        localeCompare aSegment bSegment = 0
  end.
Proof.
  unfold compareSegment, thenCompare, numbersOf.
  pose proof (compareNumbers_lex (matchDigits "" aSegment) (matchDigits "" bSegment)) as H.
  destruct (compareNumbers _ _) as [d|].
  - destruct H as [Hd ->]. destruct (Z.eqb_spec d 0); [contradiction|]. split; [exact Hd|reflexivity].
  - rewrite H.
    destruct (Nat.eqb_spec (length (matchDigits "" aSegment))
                           (length (matchDigits "" bSegment))) as [E|E]; cbn [negb].
    + rewrite E, Z.sub_diag. cbn.
      destruct (Z.eqb_spec (localeCompare aSegment bSegment) 0) as [E0|E0]; cbn [negb];
        [exact E0|split; [exact E0|reflexivity]].
    + destruct (Z.eqb_spec (Z.of_nat (length (matchDigits "" aSegment)) -
                            Z.of_nat (length (matchDigits "" bSegment))) 0); [lia|].
      split; [lia|reflexivity].
Qed.

Lemma compareSegments_lex localeCompare aSegments bSegments :
  match compareSegments localeCompare aSegments bSegments with
  | Some d => d
  | None => Z.of_nat (length aSegments) - Z.of_nat (length bSegments)
  end =
  lexCompare
    (thenCompare (fun x y => lexCompare (fun x y => x - y) (numbersOf x) (numbersOf y))
       localeCompare)
    aSegments bSegments.
Proof.
  revert bSegments. induction aSegments as [|x xs IH]; intros [|y ys];
    cbn [compareSegments lexCompare]; try reflexivity.
  pose proof (compareSegment_then localeCompare x y) as H.
  destruct (compareSegment localeCompare x y) as [d|].
  - destruct H as [Hd ->]. destruct (Z.eqb_spec d 0); [contradiction|reflexivity].
  - rewrite H. cbn. rewrite <- IH.
    destruct (compareSegments localeCompare xs ys); [reflexivity|].
    cbn [length]. lia.
Qed.

(** [naturalSort] compares the paths segment by segment: the numbers of
    the segments first, the segments themselves where the numbers agree,
    and the number of segments last. *)
Lemma naturalSort_lex sep localeCompare a b :
  naturalSort sep localeCompare a b =
  lexCompare
    (thenCompare (fun x y => lexCompare (fun x y => x - y) (numbersOf x) (numbersOf y))
       localeCompare)
    (JS.split sep a) (JS.split sep b).
Proof. unfold naturalSort. apply compareSegments_lex. Qed.

(** X21: [naturalSort] is a consistent comparison function whenever the
    host's [localeCompare] is one: exchanging the arguments changes the sign
    of the result, and the order is transitive, so the order in which the
    files are processed does not depend on how the sort visits them. *)
Theorem naturalSort_consistent (sep : ascii) (localeCompare : string -> string -> Z) :
  consistent localeCompare ->
  consistent (naturalSort sep localeCompare).
Proof.
  intros H.
  pose proof (consistent_pullback (JS.split sep) _
                (consistent_lex _
                   (consistent_then _ _
                      (consistent_pullback numbersOf _ (consistent_lex _ consistent_minus))
                      H))) as [Ha Ht].
  split.
  - intros a b. rewrite !naturalSort_lex. apply Ha.
  - intros a b c. rewrite !naturalSort_lex. apply Ht.
Qed.

Lemma naturalSort_consistent_witness : consistent (naturalSort "/" compareLength).
Proof.
  apply naturalSort_consistent. unfold consistent, compareLength. split; intros; lia.
Defined.

Lemma matchDigits_skip p s :
  noDigit p = true -> matchDigits "" (p +:+ s) = matchDigits "" s.
Proof.
  induction p as [|c p IH]; intros H; [reflexivity|].
  cbn [noDigit] in H. apply andb_prop in H as [Hc Hp].
  rewrite string_app_cons. cbn [matchDigits].
  destruct (JS.isDigit c); [discriminate|]. apply IH, Hp.
Qed.

Lemma matchDigits_run d run s :
  onlyDigits d = true -> matchDigits run (d +:+ s) = matchDigits (run +:+ d) s.
Proof.
  revert run. induction d as [|c d IH]; intros run H.
  - rewrite string_app_nil_l, string_app_empty_r. reflexivity.
  - cbn [onlyDigits] in H. apply andb_prop in H as [Hc Hd].
    rewrite string_app_cons. cbn [matchDigits]. rewrite Hc, IH by exact Hd.
    rewrite string_app_assoc. reflexivity.
Qed.

Lemma matchDigits_end c run q :
  endsNumber q = true ->
  matchDigits (String c run) q = String c run :: matchDigits "" q.
Proof.
  destruct q as [|a q]; intros H; [reflexivity|].
  cbn [endsNumber] in H. cbn [matchDigits].
  destruct (JS.isDigit a); [discriminate|reflexivity].
Qed.

(** The first number of a name that starts with a text without digits
    followed by a number. *)
Lemma matchDigits_first p c d q :
  noDigit p = true -> onlyDigits (String c d) = true -> endsNumber q = true ->
  matchDigits "" (p +:+ String c d +:+ q) = String c d :: matchDigits "" q.
Proof.
  intros Hp Hd Hq.
  rewrite matchDigits_skip by exact Hp.
  rewrite matchDigits_run by exact Hd.
  rewrite string_app_nil_l. apply matchDigits_end, Hq.
Qed.

Lemma onlyDigits_uint d : onlyDigits (NilEmpty.string_of_uint d) = true.
Proof. induction d; cbn; auto. Qed.

Lemma parseIntFrom_uint d acc :
  parseIntFrom (Z.pos acc) (NilEmpty.string_of_uint d) = Z.pos (Pos.of_uint_acc d acc).
Proof.
  revert acc. induction d; intros acc; cbn [NilEmpty.string_of_uint parseIntFrom Pos.of_uint_acc];
    [reflexivity|..];
    match goal with
    | |- context [JS.isDigit ?c] => change (JS.isDigit c) with true; cbv iota
    end;
    match goal with
    | |- parseIntFrom ?a _ = Z.pos (Pos.of_uint_acc _ ?b) =>
        replace a with (Z.pos b) by (cbn [JS.digitValue]; vm_compute JS.digitValue; lia)
    end; apply IHd.
Qed.

Lemma parseInt_uint d :
  parseIntFrom 0 (NilEmpty.string_of_uint d) = Z.of_N (Pos.of_uint d).
Proof.
  induction d; cbn [NilEmpty.string_of_uint parseIntFrom Pos.of_uint];
    [reflexivity|..];
    match goal with
    | |- context [JS.isDigit ?c] => change (JS.isDigit c) with true; cbv iota
    end;
    [exact IHd|..]; apply (parseIntFrom_uint d).
Qed.

(** The decimal text of a natural number: digits only, not empty, and
    [parseInt] gives the number back. *)
Lemma toString_digits n :
  0 <= n ->
  exists c d, JS.toString n = String c d /\ onlyDigits (String c d) = true /\
              parseInt (JS.toString n) = n.
Proof.
  intros Hn. unfold JS.toString, parseInt. destruct n as [|p|p]; [| |lia].
  - exists "0"%char, "". repeat split.
  - cbn [Z.to_int NilZero.string_of_int NilZero.string_of_uint].
    pose proof (DecimalPos.Unsigned.to_uint_nonnil p) as Hnil.
    pose proof (onlyDigits_uint (Pos.to_uint p)) as Hd.
    pose proof (parseInt_uint (Pos.to_uint p)) as Hv.
    rewrite DecimalPos.Unsigned.of_to in Hv.
    destruct (Pos.to_uint p) as [|u|u|u|u|u|u|u|u|u|u] eqn:E; [contradiction|..];
      eexists _, _; (split; [reflexivity|]); (split; [exact Hd|exact Hv]).
Qed.

Lemma hasChar_app c a b : hasChar c (a +:+ b) = hasChar c a || hasChar c b.
Proof.
  induction a as [|x a IH]; [reflexivity|].
  rewrite string_app_cons. cbn [hasChar]. rewrite IH. apply orb_assoc.
Qed.

Lemma hasChar_onlyDigits sep d :
  JS.isDigit sep = false -> onlyDigits d = true -> hasChar sep d = false.
Proof.
  intros Hs. induction d as [|c d IH]; intros H; [reflexivity|].
  cbn [onlyDigits] in H. apply andb_prop in H as [Hc Hd].
  cbn [hasChar]. rewrite IH by exact Hd.
  destruct (Ascii.eqb_spec c sep) as [->|]; [congruence|reflexivity].
Qed.

(** X22: numbers decide before letters.  For two file names of one path
    segment that each start with a text without digits followed by a number
    in decimal, the numbers being below 2^53 (where [parseInt] and the
    subtraction are exact), [naturalSort] returns the difference of the two
    numbers when they differ, whatever the texts, whatever follows the
    numbers and whatever [localeCompare] says: file 9 comes before file 10,
    and [chapter-10] comes after [episode-9]. *)
Theorem naturalSort_numbers_first (sep : ascii) (localeCompare : string -> string -> Z)
    (p q p' q' : string) (n m : Z) :
  JS.isDigit sep = false ->
  hasChar sep p = false -> hasChar sep q = false ->
  hasChar sep p' = false -> hasChar sep q' = false ->
  noDigit p = true -> endsNumber q = true ->
  noDigit p' = true -> endsNumber q' = true ->
  0 <= n < 2 ^ 53 -> 0 <= m < 2 ^ 53 -> n <> m ->
  naturalSort sep localeCompare (p +:+ JS.toString n +:+ q) (p' +:+ JS.toString m +:+ q') =
  n - m.
Proof.
  intros Hsep Hp Hq Hp' Hq' Dp Dq Dp' Dq' [Hn _] [Hm _] Hnm.
  destruct (toString_digits n Hn) as (c & d & En & Dn & Vn).
  destruct (toString_digits m Hm) as (c' & d' & Em & Dm & Vm).
  unfold naturalSort.
  rewrite !split_no_sep.
  2:{ rewrite !hasChar_app, Hp', Hq', Em, (hasChar_onlyDigits sep _ Hsep Dm). reflexivity. }
  2:{ rewrite !hasChar_app, Hp, Hq, En, (hasChar_onlyDigits sep _ Hsep Dn). reflexivity. }
  cbn [compareSegments]. unfold compareSegment.
  rewrite En, Em, !matchDigits_first by assumption.
  cbn [compareNumbers]. rewrite <- En, <- Em, Vn, Vm.
  destruct (Z.eqb_spec n m); [contradiction|reflexivity].
Qed.

Lemma naturalSort_numbers_first_witness :
  naturalSort "/" compareLength ("episode-" +:+ JS.toString 9 +:+ ".mp3")
    ("chapter-" +:+ JS.toString 10 +:+ ".mp3") = 9 - 10.
Proof.
  apply naturalSort_numbers_first; try reflexivity; lia.
Defined.
